(** * mosdns-x: the MAC address matcher ([pkg/matcher/macaddr])

    A shallow embedding of [macaddr.go] and [load_helper.go] together with
    the parts of the Go standard library they call ([net.ParseMAC],
    [strings.TrimSpace], [bufio.Scanner]), and the properties of the
    package stated over that embedding.

    Conventions
    - Go [string]  is [string]  (a sequence of 8-bit characters);
    - Go [[]byte] and [net.HardwareAddr] are [list byte];
    - Go [int] is [Z]; every [int] below is a length or a counter bounded
      by the size of an in-memory object, far below 2^63;
    - a method with a pointer receiver that mutates it returns the new
      receiver state next to its Go results;
    - a Go [error] result is [option error], [None] being [nil];
    - where a property is about the calls a loop makes, a call is a
      [call W A]: it ends in a state, having returned or panicked. *)

From Stdlib Require Import ZArith Lia Bool.
From Stdlib Require Import Strings.String Strings.Ascii Strings.Byte.
From stdpp Require Import base decidable option list gmap strings.

#[local] Open Scope string_scope.
#[local] Open Scope list_scope.
#[local] Open Scope Z_scope.

(** ** Bytes and characters *)

#[global] Instance byte_eq_dec : EqDecision byte := Byte.byte_eq_dec.

Definition byte_of_to_N (b : byte) : default x00 (Byte.of_N (Byte.to_N b)) = b :=
  f_equal (default x00) (Byte.of_to_N b).

#[global] Instance byte_countable : Countable byte :=
  inj_countable' Byte.to_N (fun n => default x00 (Byte.of_N n)) byte_of_to_N.

(** The numeric value of a character, as in Go's [int(s[i])]. *)
Definition ord (c : ascii) : Z := Z.of_N (N_of_ascii c).
Arguments ord c%_char.

(** Go's conversion [byte(n)] of an [int]: the low eight bits. *)
Definition byte_of_int (n : Z) : byte :=
  default x00 (Byte.of_N (Z.to_N (n mod 256))).

(** [len(s)] for a string and for a slice. *)
Definition len (s : string) : Z := Z.of_nat (String.length s).
Definition blen {A} (b : list A) : Z := Z.of_nat (length b).

(** [s[i]]; every use below is guarded by a length test, as in the source
    (an index out of range would panic in Go). *)
Definition at_ (s : string) (i : nat) : ascii :=
  match String.get i s with Some c => c | None => zero end.

(** [s[x:]] and [s[:n]]. *)
Fixpoint from (x : nat) (s : string) : string :=
  match x, s with
  | O, _ => s
  | S x', String _ s' => from x' s'
  | S _, EmptyString => EmptyString
  end.

Fixpoint upto (n : nat) (s : string) : string :=
  match n, s with
  | S n', String c s' => String c (upto n' s')
  | _, _ => EmptyString
  end.

(** [s[a:b]]. *)
Definition slice (a b : nat) (s : string) : string := upto (b - a) (from a s).

(** ** Errors

    The errors of the package are built by [fmt.Errorf] from a format and
    its operands; [%w] wraps an inner error.  Two errors come from the
    standard library. *)

Inductive error : Type :=
| AddrError (Err Addr : string)          (* *net.AddrError, from ParseMAC *)
| ErrTooLong                             (* bufio.ErrTooLong *)
| Errorf (format : string) (a : list operand)
with operand : Type :=
| OpS (s : string)                       (* %s *)
| OpD (n : Z)                            (* %d *)
| OpW (e : error).                       (* %w *)

(** ** [net.ParseMAC] (Go standard library, net/mac.go and net/parse.go) *)

Definition big : Z := 0xFFFFFF.

(** The value of one hexadecimal digit of [xtoi], [None] for any other
    character. *)
Definition hexval (c : ascii) : option Z :=
  if (ord "0" <=? ord c) && (ord c <=? ord "9") then Some (ord c - ord "0")
  else if (ord "a" <=? ord c) && (ord c <=? ord "f") then Some (ord c - ord "a" + 10)
  else if (ord "A" <=? ord c) && (ord c <=? ord "F") then Some (ord c - ord "A" + 10)
  else None.

(** [xtoi]: hexadecimal to integer; returns the number, the characters
    consumed and success.  The loop stops at the first character that is
    not a hexadecimal digit. *)
Fixpoint xtoi_loop (s : string) (n i : Z) : Z * Z * bool :=
  match s with
  | EmptyString => if i =? 0 then (0, i, false) else (n, i, true)
  | String c s' =>
      match hexval c with
      | Some d =>
          let n := n * 16 + d in
          if big <=? n then (0, i, false) else xtoi_loop s' n (i + 1)
      | None => if i =? 0 then (0, i, false) else (n, i, true)
      end
  end.

Definition xtoi (s : string) : Z * Z * bool := xtoi_loop s 0 0.

(** [xtoi2] converts the next two hex digits of [s] into a byte.  If [s]
    is longer than 2 bytes then the third byte must be [e]. *)
Definition xtoi2 (s : string) (e : ascii) : byte * bool :=
  if (2 <? len s) && negb (Ascii.eqb (at_ s 2) e) then (x00, false)
  else
    let '(n, ei, ok) := xtoi (upto 2 s) in
    (byte_of_int n, ok && (ei =? 2)).

(** The loop of the colon/hyphen form: [n] groups, three characters apart. *)
Fixpoint ParseMAC_sep (n : nat) (s : string) (x : nat) : option (list byte) :=
  match n with
  | O => Some []
  | S n' =>
      let '(b, ok) := xtoi2 (from x s) (at_ s 2) in
      if ok then cons b <$> ParseMAC_sep n' s (x + 3) else None
  end.

(** The loop of the dotted form: [n] pairs of bytes, five characters apart. *)
Fixpoint ParseMAC_dot (n : nat) (s : string) (x : nat) : option (list byte) :=
  match n with
  | O => Some []
  | S n' =>
      let '(b0, ok0) := xtoi2 (slice x (x + 2) s) zero in
      if ok0 then
        let '(b1, ok1) := xtoi2 (from (x + 2) s) (at_ s 4) in
        if ok1 then (fun hw => b0 :: b1 :: hw) <$> ParseMAC_dot n' s (x + 5)
        else None
      else None
  end.

Definition ParseMAC_error (s : string) : list byte * option error :=
  ([], Some (AddrError "invalid MAC address" s)).

Definition ParseMAC (s : string) : list byte * option error :=
  if len s <? 14 then ParseMAC_error s
  else if Ascii.eqb (at_ s 2) ":" || Ascii.eqb (at_ s 2) "-" then
    if negb ((len s + 1) mod 3 =? 0) then ParseMAC_error s
    else
      let n := (len s + 1) / 3 in
      if negb (n =? 6) && negb (n =? 8) && negb (n =? 20) then ParseMAC_error s
      else
        match ParseMAC_sep (Z.to_nat n) s 0 with
        | Some hw => (hw, None)
        | None => ParseMAC_error s
        end
  else if Ascii.eqb (at_ s 4) "." then
    if negb ((len s + 1) mod 5 =? 0) then ParseMAC_error s
    else
      let n := 2 * (len s + 1) / 5 in
      if negb (n =? 6) && negb (n =? 8) && negb (n =? 20) then ParseMAC_error s
      else
        match ParseMAC_dot (Z.to_nat (n / 2)) s 0 with
        | Some hw => (hw, None)
        | None => ParseMAC_error s
        end
  else ParseMAC_error s.

(** ** [macaddr.go]: the static set *)

(** [macs map[[6]byte]struct{}].  A key is written as the list of its
    bytes; [copy6] below always produces six of them. *)
Record Matcher : Type := mkMatcher { macs : gmap (list byte) unit }.

(** [var key [6]byte; copy(key[:], mac)]: the zero array overwritten by
    the first [min(6, len(mac))] bytes of [mac]. *)
Definition copy6 (mac : list byte) : list byte :=
  take 6 mac ++ replicate (6 - length mac) x00.

Definition NewMatcher : Matcher := mkMatcher ∅.

Definition Matcher_Match (m : Matcher) (mac : list byte) : bool :=
  if negb (blen mac =? 6) then false
  else
    let key := copy6 mac in
    match macs m !! key with Some _ => true | None => false end.

Definition Matcher_Len (m : Matcher) : Z := Z.of_nat (size (macs m)).

Definition Matcher_Close (m : Matcher) : option error := None.

Definition Matcher_add (m : Matcher) (mac : list byte) : Matcher :=
  let key := copy6 mac in
  mkMatcher (<[key := tt]> (macs m)).

Definition Matcher_Add (m : Matcher) (pattern : string) (v : unit)
  : Matcher * option error :=
  let '(hwAddr, err) := ParseMAC pattern in
  match err with
  | Some err =>
      (m, Some (Errorf "invalid MAC address %s: %w" [OpS pattern; OpW err]))
  | None =>
      if negb (blen hwAddr =? 6) then
        (m, Some (Errorf "MAC address must be 6 bytes, got %d" [OpD (blen hwAddr)]))
      else (Matcher_add m hwAddr, None)
  end.

(** ** [strings] (Go standard library)

    [strings.TrimSpace] returns [s] without its leading and trailing white
    space, as defined by Unicode: the code points with the White_Space
    property, in their UTF-8 encoding.  A byte that is not part of such an
    encoding (also a malformed one) is never removed. *)

Definition white_space : list (list byte) :=
  [ [x09]; [x0a]; [x0b]; [x0c]; [x0d]; [x20];          (* \t \n \v \f \r ' ' *)
    [xc2; x85]; [xc2; xa0];                            (* U+0085, U+00A0 *)
    [xe1; x9a; x80];                                   (* U+1680 *)
    [xe2; x80; x80]; [xe2; x80; x81]; [xe2; x80; x82]; (* U+2000 .. U+200A *)
    [xe2; x80; x83]; [xe2; x80; x84]; [xe2; x80; x85];
    [xe2; x80; x86]; [xe2; x80; x87]; [xe2; x80; x88];
    [xe2; x80; x89]; [xe2; x80; x8a];
    [xe2; x80; xa8]; [xe2; x80; xa9];                  (* U+2028, U+2029 *)
    [xe2; x80; xaf];                                   (* U+202F *)
    [xe2; x81; x9f];                                   (* U+205F *)
    [xe3; x80; x80] ].                                 (* U+3000 *)

(** Is [p] a prefix of [s]?  (Executable.) *)
Fixpoint starts_with (p s : list byte) : bool :=
  match p, s with
  | [], _ => true
  | a :: p', b :: s' => if decide (a = b) then starts_with p' s' else false
  | _ :: _, [] => false
  end.

(** The number of bytes of the white space code point that [s] starts
    with, [0] if it starts with none. *)
Definition space_width (s : list byte) : nat :=
  match find (fun e => starts_with e s) white_space with
  | Some e => length e
  | None => 0
  end.

(** The same at the end of [s]. *)
Definition space_width_last (s : list byte) : nat :=
  match find (fun e => starts_with (reverse e) (reverse s)) white_space with
  | Some e => length e
  | None => 0
  end.

Fixpoint TrimLeft_loop (fuel : nat) (s : list byte) : list byte :=
  match fuel with
  | O => s
  | S fuel' =>
      match space_width s with
      | O => s
      | w => TrimLeft_loop fuel' (drop w s)
      end
  end.

Fixpoint TrimRight_loop (fuel : nat) (s : list byte) : list byte :=
  match fuel with
  | O => s
  | S fuel' =>
      match space_width_last s with
      | O => s
      | w => TrimRight_loop fuel' (take (length s - w) s)
      end
  end.

(** Each round removes at least one byte, so [length s] rounds suffice. *)
Definition TrimLeft (s : list byte) : list byte := TrimLeft_loop (length s) s.
Definition TrimRight (s : list byte) : list byte := TrimRight_loop (length s) s.

Definition TrimSpace (s : string) : string :=
  string_of_list_byte (TrimRight (TrimLeft (list_byte_of_string s))).

(** [strings.HasPrefix] and [strings.TrimPrefix]. *)
Fixpoint HasPrefix (s prefix : string) : bool :=
  match prefix, s with
  | EmptyString, _ => true
  | String a p', String b s' => Ascii.eqb a b && HasPrefix s' p'
  | String _ _, EmptyString => false
  end.

Definition TrimPrefix (s prefix : string) : string :=
  if HasPrefix s prefix then from (String.length prefix) s else s.

(** ** [load_helper.go]: the matcher interfaces

    [W] is the state outside the receiver that a method may read or, for
    [Close], change (the data manager a closer detaches from, the heap a
    pointer member points into).  A method of a value that holds all its
    state ignores it. *)

Abbreviation HardwareAddr := (list byte).

Class LocalMatcher (W T : Type) : Type := {
  Match : T -> W -> HardwareAddr -> bool;
  Len : T -> W -> Z;
  Close : T -> W -> W * option error
}.

(** [LocalWriteableMatcher] embeds [LocalMatcher] and adds [Add]; [Add]
    mutates its receiver, so it returns the receiver's new state. *)
Class LocalWriteableMatcher (T : Type) : Type := {
  Add : T -> string -> unit -> T * option error
}.

#[global] Hint Mode LocalMatcher - ! : typeclass_instances.
#[global] Hint Mode LocalWriteableMatcher ! : typeclass_instances.

#[global] Instance Matcher_LocalMatcher {W} : LocalMatcher W Matcher := {
  Match m _ mac := Matcher_Match m mac;
  Len m _ := Matcher_Len m;
  Close m w := (w, Matcher_Close m)
}.

#[global] Instance Matcher_LocalWriteableMatcher : LocalWriteableMatcher Matcher := {
  Add := Matcher_Add
}.

(** [Load] loads a MAC address string to the matcher. *)
Definition Load {T} `{LocalWriteableMatcher T} (m : T) (s : string)
  : T * option error :=
  let s := TrimSpace s in
  if len s =? 0 then (m, None)
  else Add m s tt.

(** [BatchLoad] loads multiple MAC address strings to the matcher. *)
Fixpoint BatchLoad {T} `{LocalWriteableMatcher T} (m : T) (b : list string)
  : T * option error :=
  match b with
  | [] => (m, None)
  | s :: b' =>
      match Load m s with
      | (m, Some err) =>
          (m, Some (Errorf "failed to load data %s: %w" [OpS s; OpW err]))
      | (m, None) => BatchLoad m b'
      end
  end.

(** ** [bufio.Scanner] (Go standard library)

    [bufio.NewScanner(r)] splits its input into lines: a line ends at a
    newline, which is not part of the token, and one trailing carriage
    return is dropped from the token; the bytes after the last newline are
    a last token when there are any.  The scanner's buffer holds at most
    [MaxScanTokenSize] bytes: when that many bytes hold no newline,
    scanning stops and [Err()] is [ErrTooLong].

    The scanner is written as what a loop [for scanner.Scan()] sees: the
    tokens in order and the final [scanner.Err()]. *)

Definition MaxScanTokenSize : Z := 64 * 1024.

(** [dropCR] on a token held in reverse. *)
Definition dropCR_rev (tok : list byte) : list byte :=
  match tok with
  | x0d :: tok' => reverse tok'
  | _ => reverse tok
  end.

(** [tok] is the token read so far, in reverse, and [n] its length. *)
Fixpoint Scanner_loop (r : list byte) (tok : list byte) (n : Z)
  : list (list byte) * option error :=
  match r with
  | [] => (if n =? 0 then [] else [dropCR_rev tok], None)
  | b :: r' =>
      if decide (b = x0a) then
        let '(toks, err) := Scanner_loop r' [] 0 in
        (dropCR_rev tok :: toks, err)
      else if MaxScanTokenSize <=? n + 1 then ([], Some ErrTooLong)
      else Scanner_loop r' (b :: tok) (n + 1)
  end.

Definition NewScanner (r : list byte) : list (list byte) * option error :=
  Scanner_loop r [] 0.

(** ** [load_helper.go]: loading a text file *)

(** The body of [for scanner.Scan() { ... }] over the tokens still to
    come; [scanErr] is what [scanner.Err()] returns after the last one. *)
Fixpoint LoadFromTextReader_loop {T} `{LocalWriteableMatcher T}
    (m : T) (toks : list (list byte)) (scanErr : option error) (lineCounter : Z)
  : T * option error :=
  match toks with
  | [] => (m, scanErr)
  | tok :: toks' =>
      let lineCounter := lineCounter + 1 in
      let s := string_of_list_byte tok in
      let s := TrimSpace s in
      if (len s =? 0) || HasPrefix s "#" then
        LoadFromTextReader_loop m toks' scanErr lineCounter
      else
        match Load m s with
        | (m, Some err) =>
            (m, Some (Errorf "line %d: %w" [OpD lineCounter; OpW err]))
        | (m, None) => LoadFromTextReader_loop m toks' scanErr lineCounter
        end
  end.

(** [LoadFromTextReader] loads multiple lines from reader [r]. *)
Definition LoadFromTextReader {T} `{LocalWriteableMatcher T}
    (m : T) (r : list byte) : T * option error :=
  let lineCounter := 0 in
  let '(toks, scanErr) := NewScanner r in
  LoadFromTextReader_loop m toks scanErr lineCounter.

(** [ParseTextMacFile] parses MAC addresses from text bytes. *)
Definition ParseTextMacFile (in_ : list byte) : option Matcher * option error :=
  let m := NewMatcher in
  match LoadFromTextReader m in_ with
  | (_, Some err) => (None, Some err)
  | (m, None) => (Some m, None)
  end.

(** ** [load_helper.go]: the reloadable cell

    [M] is the type of the values the parser function builds.  The lock
    [l] only orders the reads and the write of the field [m]; a method
    call is one step here, so the lock has no counterpart. *)

Record DynamicMatcher (M : Type) : Type := mkDynamicMatcher {
  parserFunc : list byte -> option M * option error;
  m_ : option M                                   (* the field [m] *)
}.
Arguments mkDynamicMatcher {M}.
Arguments parserFunc {M}.
Arguments m_ {M}.

Definition NewDynamicMatcher {M} (parserFunc : list byte -> option M * option error)
  : DynamicMatcher M :=
  mkDynamicMatcher parserFunc None.

Section DynamicMatcher.
Context {W M : Type} `{LocalMatcher W M}.

Definition DynamicMatcher_Match (d : DynamicMatcher M) (w : W) (mac : HardwareAddr)
  : bool :=
  let m := m_ d in
  match m with
  | None => false
  | Some m => Match m w mac
  end.

Definition DynamicMatcher_Len (d : DynamicMatcher M) (w : W) : Z :=
  let m := m_ d in
  match m with
  | None => 0
  | Some m => Len m w
  end.

Definition DynamicMatcher_Close (d : DynamicMatcher M) (w : W) : W * option error :=
  let m := m_ d in
  match m with
  | Some m => Close m w
  | None => (w, None)
  end.

Definition DynamicMatcher_Update (d : DynamicMatcher M) (b : list byte)
  : DynamicMatcher M * option error :=
  let '(m, err) := parserFunc d b in
  match err with
  | Some err => (d, Some err)
  | None => (mkDynamicMatcher (parserFunc d) m, None)
  end.

#[global] Instance DynamicMatcher_LocalMatcher : LocalMatcher W (DynamicMatcher M) := {
  Match := DynamicMatcher_Match;
  Len := DynamicMatcher_Len;
  Close := DynamicMatcher_Close
}.
End DynamicMatcher.

(** ** [load_helper.go]: the matcher group

    [T] is the type of the members.  A [func()] closer is read here as a
    function on the state [W]: a call that returns, as the closers that
    [BatchLoadMacProvider] registers do.  A closer that panics, and a
    member whose [Match] changes the state or panics, are the subject of
    [Calls] below. *)

Record LocalMatcherGroup (W T : Type) : Type := mkLocalMatcherGroup {
  g : list T;
  closer : list (W -> W)
}.
Arguments mkLocalMatcherGroup {W T}.
Arguments g {W T}.
Arguments closer {W T}.

Section LocalMatcherGroup.
Context {W T : Type} `{LocalMatcher W T}.

Fixpoint Close_loop (closer : list (W -> W)) (w : W) : W :=
  match closer with
  | [] => w
  | f :: closer' => Close_loop closer' (f w)
  end.

Definition LocalMatcherGroup_Close (mg : LocalMatcherGroup W T) (w : W)
  : W * option error :=
  (Close_loop (closer mg) w, None).

Fixpoint Match_loop (g : list T) (w : W) (mac : HardwareAddr) : bool :=
  match g with
  | [] => false
  | m :: g' => if Match m w mac then true else Match_loop g' w mac
  end.

Definition LocalMatcherGroup_Match (mg : LocalMatcherGroup W T) (w : W)
    (mac : HardwareAddr) : bool :=
  Match_loop (g mg) w mac.

Fixpoint Len_loop (g : list T) (w : W) (s : Z) : Z :=
  match g with
  | [] => s
  | m :: g' => Len_loop g' w (s + Len m w)
  end.

Definition LocalMatcherGroup_Len (mg : LocalMatcherGroup W T) (w : W) : Z :=
  let s := 0 in
  Len_loop (g mg) w s.

Definition Append (mg : LocalMatcherGroup W T) (nm : T) : LocalMatcherGroup W T :=
  mkLocalMatcherGroup (g mg ++ [nm]) (closer mg).

Definition AppendCloser (mg : LocalMatcherGroup W T) (f : W -> W)
  : LocalMatcherGroup W T :=
  mkLocalMatcherGroup (g mg) (closer mg ++ [f]).

#[global] Instance LocalMatcherGroup_LocalMatcher
  : LocalMatcher W (LocalMatcherGroup W T) := {
  Match := LocalMatcherGroup_Match;
  Len := LocalMatcherGroup_Len;
  Close := LocalMatcherGroup_Close
}.
End LocalMatcherGroup.

(** ** [load_helper.go]: the group, call by call

    The interface above reads [Match] as a function of the state and a
    closer as a function on the state.  The members and closers of this
    package are of that kind, but the group takes any [LocalMatcher] as a
    member and any [func()] as a closer, and a Go call can do more: it can
    change the state, and it can panic instead of returning.

    A [call W A] starts in a state of [W] and ends in one, having returned
    a value of [A] or panicked with a value (shown as a string).  No
    function of the package calls [recover]: a panic in a callee ends the
    caller with the same panic, in the state the callee left. *)

Inductive outcome (A : Type) : Type :=
| returned (a : A)
| panicked (v : string).
Arguments returned {A}.
Arguments panicked {A}.

Definition call (W A : Type) : Type := W -> outcome A * W.

Definition call_ret {W A} (a : A) : call W A := fun w => (returned a, w).

Definition call_bind {W A B} (c : call W A) (k : A -> call W B) : call W B :=
  fun w =>
    match c w with
    | (returned a, w') => k a w'
    | (panicked v, w') => (panicked v, w')
    end.

Declare Scope call_scope.
Delimit Scope call_scope with call.
Notation "x ← c ; k" := (call_bind c (fun x => k))
  (at level 20, c at level 100, k at level 200, only parsing) : call_scope.

(** The interface and the group once more, every method a call. *)
Module Calls.
#[local] Open Scope call_scope.

Class LocalMatcher (W T : Type) : Type := {
  Match : T -> HardwareAddr -> call W bool;
  Len : T -> call W Z;
  Close : T -> call W (option error)
}.

#[global] Hint Mode LocalMatcher - ! : typeclass_instances.

Record LocalMatcherGroup (W T : Type) : Type := mkLocalMatcherGroup {
  g : list T;
  closer : list (call W unit)
}.
Arguments mkLocalMatcherGroup {W T}.
Arguments g {W T}.
Arguments closer {W T}.

Section LocalMatcherGroup.
Context {W T : Type} `{LocalMatcher W T}.

(** [for _, f := range mg.closer { f() }] *)
Fixpoint Close_loop (closer : list (call W unit)) : call W unit :=
  match closer with
  | [] => call_ret tt
  | f :: closer' => _ ← f; Close_loop closer'
  end.

Definition LocalMatcherGroup_Close (mg : LocalMatcherGroup W T)
  : call W (option error) :=
  _ ← Close_loop (closer mg); call_ret None.

(** [for _, m := range mg.g { if m.Match(mac) { return true } }] *)
Fixpoint Match_loop (g : list T) (mac : HardwareAddr) : call W bool :=
  match g with
  | [] => call_ret false
  | m :: g' => r ← Match m mac; if r then call_ret true else Match_loop g' mac
  end.

Definition LocalMatcherGroup_Match (mg : LocalMatcherGroup W T)
    (mac : HardwareAddr) : call W bool :=
  Match_loop (g mg) mac.

(** [for _, m := range mg.g { s += m.Len() }] *)
Fixpoint Len_loop (g : list T) (s : Z) : call W Z :=
  match g with
  | [] => call_ret s
  | m :: g' => n ← Len m; Len_loop g' (s + n)
  end.

Definition LocalMatcherGroup_Len (mg : LocalMatcherGroup W T) : call W Z :=
  let s := 0 in
  Len_loop (g mg) s.

Definition Append (mg : LocalMatcherGroup W T) (nm : T) : LocalMatcherGroup W T :=
  mkLocalMatcherGroup (g mg ++ [nm]) (closer mg).

Definition AppendCloser (mg : LocalMatcherGroup W T) (f : call W unit)
  : LocalMatcherGroup W T :=
  mkLocalMatcherGroup (g mg) (closer mg ++ [f]).

#[global] Instance LocalMatcherGroup_LocalMatcher
  : LocalMatcher W (LocalMatcherGroup W T) := {
  Match := LocalMatcherGroup_Match;
  Len := LocalMatcherGroup_Len;
  Close := LocalMatcherGroup_Close
}.
End LocalMatcherGroup.
End Calls.

(** ** The heap and the data manager

    [BatchLoadMacProvider] shares objects: the static matcher is a member
    of the group while it is still being filled, and every cell is held by
    the group and by the provider it listens to.  These objects live in a
    heap and are named by their address. *)

Abbreviation loc := nat.

(** Modelled from the spec: [data_provider.DataProvider] is not among the
    sources.  A provider holds its current raw bytes and a collection of
    listeners (sinks), each the address of a cell. *)
Record DataProvider : Type := mkDataProvider {
  dp_data : list byte;
  dp_listeners : gset loc
}.

Record World : Type := mkWorld {
  matchers : list Matcher;                   (* the [*Matcher] objects *)
  cells : list (DynamicMatcher Matcher);     (* the [*DynamicMatcher] objects *)
  providers : gmap string DataProvider       (* the [*DataManager] *)
}.

(** A [LocalMatcher] interface value held by the group: a pointer with
    its dynamic type. *)
Inductive member : Type :=
| PtrMatcher (p : loc)
| PtrDynamicMatcher (p : loc).

(** A method called through a pointer acts on the object in the heap. *)
#[global] Instance member_LocalMatcher : LocalMatcher World member := {
  Match p w mac :=
    match p with
    | PtrMatcher p =>
        match matchers w !! p with Some m => Matcher_Match m mac | None => false end
    | PtrDynamicMatcher p =>
        match cells w !! p with Some d => DynamicMatcher_Match d w mac | None => false end
    end;
  Len p w :=
    match p with
    | PtrMatcher p =>
        match matchers w !! p with Some m => Matcher_Len m | None => 0 end
    | PtrDynamicMatcher p =>
        match cells w !! p with Some d => DynamicMatcher_Len d w | None => 0 end
    end;
  Close p w :=
    match p with
    | PtrMatcher p =>
        match matchers w !! p with Some m => (w, Matcher_Close m) | None => (w, None) end
    | PtrDynamicMatcher p =>
        match cells w !! p with Some d => DynamicMatcher_Close d w | None => (w, None) end
    end
}.

Definition new_Matcher (m : Matcher) (w : World) : loc * World :=
  (length (matchers w), mkWorld (matchers w ++ [m]) (cells w) (providers w)).

Definition new_DynamicMatcher (d : DynamicMatcher Matcher) (w : World) : loc * World :=
  (length (cells w), mkWorld (matchers w) (cells w ++ [d]) (providers w)).

(** [Load(staticMatcher, s)] with [staticMatcher] a pointer. *)
Definition Load_at (p : loc) (s : string) (w : World) : option error * World :=
  match matchers w !! p with
  | Some m =>
      let '(m, err) := Load m s in
      (err, mkWorld (<[p := m]> (matchers w)) (cells w) (providers w))
  | None => (None, w)
  end.

(** Modelled from the spec: [DataManager.GetDataProvider] is not among the
    sources; it returns the provider registered under the name, [nil] when
    there is none. *)
Definition GetDataProvider (w : World) (tag : string) : option DataProvider :=
  providers w !! tag.

(** Modelled from the spec: [DataProvider.LoadAndAddListener] is not among
    the sources; it "registers and performs an initial load
    synchronously": the listener's [Update] is called with the provider's
    bytes, and its error is returned.  The spec is silent on a listener
    whose initial load fails; here it is not kept. *)
Definition LoadAndAddListener (tag : string) (l : loc) (w : World)
  : option error * World :=
  match providers w !! tag, cells w !! l with
  | Some provider, Some d =>
      let '(d, err) := DynamicMatcher_Update d (dp_data provider) in
      let cells' := <[l := d]> (cells w) in
      match err with
      | Some err => (Some err, mkWorld (matchers w) cells' (providers w))
      | None =>
          let provider :=
            mkDataProvider (dp_data provider) ({[l]} ∪ dp_listeners provider) in
          (None, mkWorld (matchers w) cells' (<[tag := provider]> (providers w)))
      end
  | _, _ => (None, w)
  end.

(** Modelled from the spec: [DataProvider.DeleteListener] is not among the
    sources; it deregisters the listener. *)
Definition DeleteListener (tag : string) (l : loc) (w : World) : World :=
  match providers w !! tag with
  | Some provider =>
      let provider :=
        mkDataProvider (dp_data provider) (dp_listeners provider ∖ {[l]}) in
      mkWorld (matchers w) (cells w) (<[tag := provider]> (providers w))
  | None => w
  end.

(** ** [load_helper.go]: building a group from descriptors *)

Definition parseFunc (b : list byte) : option Matcher * option error :=
  ParseTextMacFile b.

Abbreviation result := (option (LocalMatcherGroup World member) * option error)%type.

Fixpoint BatchLoadMacProvider_loop (e : list string) (staticMatcher : loc)
    (mg : LocalMatcherGroup World member) (w : World) : result * World :=
  match e with
  | [] => ((Some mg, None), w)
  | s :: e' =>
      if HasPrefix s "provider:" then
        let providerTag := TrimPrefix s "provider:" in
        match GetDataProvider w providerTag with
        | None =>
            ((None, Some (Errorf "cannot find provider %s" [OpS providerTag])), w)
        | Some _ =>
            let '(dmMatcher, w) := new_DynamicMatcher (NewDynamicMatcher parseFunc) w in
            match LoadAndAddListener providerTag dmMatcher w with
            | (Some err, w) =>
                ((None, Some (Errorf "failed to load data from provider %s, %w"
                                [OpS providerTag; OpW err])), w)
            | (None, w) =>
                let mg := Append mg (PtrDynamicMatcher dmMatcher) in
                let mg := AppendCloser mg (DeleteListener providerTag dmMatcher) in
                BatchLoadMacProvider_loop e' staticMatcher mg w
            end
        end
      else
        match Load_at staticMatcher s w with
        | (Some err, w) =>
            ((None, Some (Errorf "failed to load data %s: %w" [OpS s; OpW err])), w)
        | (None, w) => BatchLoadMacProvider_loop e' staticMatcher mg w
        end
  end.

(** [BatchLoadMacProvider] loads multiple data entries. *)
Definition BatchLoadMacProvider (e : list string) (w : World) : result * World :=
  let mg := mkLocalMatcherGroup [] [] in
  let '(staticMatcher, w) := new_Matcher NewMatcher w in
  let mg := Append mg (PtrMatcher staticMatcher) in
  BatchLoadMacProvider_loop e staticMatcher mg w.

(** ** Vocabulary of the properties *)

(** The matchers that the package's operations can build. *)
Inductive built : Matcher -> Prop :=
| built_NewMatcher : built NewMatcher
| built_add m mac : built m -> built (Matcher_add m mac)
| built_Add m pattern : built m -> built (fst (Matcher_Add m pattern tt)).

Definition six_byte_keys (m : Matcher) : Prop :=
  forall k, is_Some (macs m !! k) -> length k = 6%nat.

(** Letter case: [lower] maps the letters [A]..[Z] to [a]..[z] and keeps
    every other character; two literals are case variants of each other
    when they differ in the case of letters only. *)
Definition lower_char (c : ascii) : ascii :=
  if (ord "A" <=? ord c) && (ord c <=? ord "Z")
  then ascii_of_N (N_of_ascii c + 32) else c.

Fixpoint lower (s : string) : string :=
  match s with
  | EmptyString => EmptyString
  | String c s' => String (lower_char c) (lower s')
  end.

Definition case_variant (L L' : string) : Prop := lower L = lower L'.

(** A cell on which no [Update] has succeeded: a new cell, and a cell of
    that kind after one more [Update] that returned an error. *)
Inductive never_updated {M} : DynamicMatcher M -> Prop :=
| never_updated_new pf : never_updated (NewDynamicMatcher pf)
| never_updated_failed d b err :
    never_updated d ->
    snd (DynamicMatcher_Update d b) = Some err ->
    never_updated (fst (DynamicMatcher_Update d b)).

(** *** Calls of the group, one after the other

    The members [ms] are called one after the other, the first in the
    state [w], each in the state the one before left; each returns
    [false], and the last leaves the state [w']. *)
Inductive passed_over {W T} `{Calls.LocalMatcher W T} (mac : HardwareAddr)
  : list T -> W -> W -> Prop :=
| passed_over_nil w : passed_over mac [] w w
| passed_over_cons m ms w w1 w2 :
    Calls.Match m mac w = (returned false, w1) ->
    passed_over mac ms w1 w2 ->
    passed_over mac (m :: ms) w w2.

(** The closers [fs] are called one after the other, the first in the
    state [w], each in the state the one before left; each returns, and
    the last leaves the state [w']. *)
Inductive ran {W} : list (call W unit) -> W -> W -> Prop :=
| ran_nil w : ran [] w w
| ran_cons f fs w w1 w2 :
    f w = (returned tt, w1) ->
    ran fs w1 w2 ->
    ran (f :: fs) w w2.

(** The elements of a list up to and including the first at which [stop]
    holds; all of them when it holds at none. *)
Fixpoint upto_first {A} (stop : A -> bool) (l : list A) : list A :=
  match l with
  | [] => []
  | x :: l' => x :: (if stop x then [] else upto_first stop l')
  end.

(** A member whose methods read the state, as a member that is called:
    every call returns and leaves the state as it was ([Close] apart,
    which leaves the state it gives).  A closer that is a function on the
    state, as a call: it returns.  A group of such members and closers. *)
Definition reading {W T} `{LocalMatcher W T} : Calls.LocalMatcher W T := {|
  Calls.Match m mac := fun w => (returned (Match m w mac), w);
  Calls.Len m := fun w => (returned (Len m w), w);
  Calls.Close m := fun w => let '(w', err) := Close m w in (returned err, w')
|}.

Definition returning {W} (f : W -> W) : call W unit :=
  fun w => (returned tt, f w).

Definition calls_of {W T} (mg : LocalMatcherGroup W T)
  : Calls.LocalMatcherGroup W T :=
  Calls.mkLocalMatcherGroup (g mg) (returning <$> closer mg).

(** A member that counts: the state is the log of the calls made so far;
    [Match] adds the member's number to it and returns the member's
    answer. *)
Record probe : Type := mkProbe {
  number : nat;
  answer : bool
}.

#[global] Instance probe_LocalMatcher : Calls.LocalMatcher (list nat) probe := {
  Calls.Match p _ := fun log => (returned (answer p), log ++ [number p]);
  Calls.Len _ := call_ret 0;
  Calls.Close _ := call_ret None
}.

(** A closer that counts: it adds its number to the log, and then returns
    or, when [fails], panics. *)
Definition numbered_closer (i : nat) (fails : bool) : call (list nat) unit :=
  fun log =>
    (if fails then panicked "closer failed" else returned tt, log ++ [i]).

(** A string that consists of white space only: a sequence of white space
    code points (none, for the empty string). *)
Definition whitespace_only (s : string) : Prop :=
  exists es : list (list byte),
    Forall (fun e => e ∈ white_space) es /\ list_byte_of_string s = concat es.

(** *** The text format, in the words of its description

    The physical lines of a text: a newline ends a line, and what follows
    the last newline is a last line when it is not empty. *)
Fixpoint lines (r : list byte) : list (list byte) :=
  match r with
  | [] => []
  | b :: r' =>
      if decide (b = x0a) then [] :: lines r'
      else
        match lines r' with
        | [] => [[b]]
        | l :: ls => (b :: l) :: ls
        end
  end.

(** A carriage return before the newline belongs to the line end. *)
Definition dropCR (l : list byte) : list byte :=
  match reverse l with
  | x0d :: l' => reverse l'
  | _ => l
  end.

(** What a line is: blank, a comment, an EUI-48 address, or malformed.
    The line is read with its surrounding white space removed. *)
Inductive line_kind : Type :=
| Blank
| Comment
| Address (hw : list byte)
| Malformed.

Definition classify (l : list byte) : line_kind :=
  let t := TrimSpace (string_of_list_byte (dropCR l)) in
  match t with
  | EmptyString => Blank
  | String c _ =>
      if Ascii.eqb c "#" then Comment
      else
        match ParseMAC t with
        | (hw, None) => if decide (length hw = 6%nat) then Address hw else Malformed
        | (_, Some _) => Malformed
        end
  end.

(** Reading the lines in order, [n] being the number of the first of
    them: blank lines and comments are passed over, an address joins the
    set, and the first malformed line ends the reading with its number. *)
Fixpoint spec_parse (ls : list (list byte)) (n : Z) (set : gmap (list byte) unit)
  : Z + gmap (list byte) unit :=
  match ls with
  | [] => inr set
  | l :: ls' =>
      match classify l with
      | Blank | Comment => spec_parse ls' (n + 1) set
      | Address hw => spec_parse ls' (n + 1) (<[hw := tt]> set)
      | Malformed => inl n
      end
  end.

Definition spec_ParseTextMacFile (in_ : list byte) : Z + gmap (list byte) unit :=
  spec_parse (lines in_) 1 ∅.

(** [ParseTextMacFile] agrees with the description: the set of the
    description, or an error that carries the description's line number. *)
Definition agrees (r : option Matcher * option error)
    (s : Z + gmap (list byte) unit) : Prop :=
  match s with
  | inl n => exists err, r = (None, Some (Errorf "line %d: %w" [OpD n; OpW err]))
  | inr set => r = (Some (mkMatcher set), None)
  end.

(** A line fits the scanner's buffer. *)
Definition fits (l : list byte) : bool := blen l <? MaxScanTokenSize.

(** What the scanner makes of the lines of a text: the lines up to the
    first one that does not fit, and its error if there is such a line. *)
Fixpoint scanned (ls : list (list byte)) : list (list byte) * option error :=
  match ls with
  | [] => ([], None)
  | l :: ls' =>
      if fits l then
        let '(toks, err) := scanned ls' in (dropCR l :: toks, err)
      else ([], Some ErrTooLong)
  end.

(** Every line up to the first malformed one, that one included, fits the
    scanner's buffer; every line does when none is malformed. *)
Fixpoint fit_to_first_malformed (ls : list (list byte)) : bool :=
  match ls with
  | [] => true
  | l :: ls' =>
      fits l &&
      match classify l with
      | Malformed => true
      | _ => fit_to_first_malformed ls'
      end
  end.

(** The listeners registered with the provider named [tag]. *)
Definition listeners (w : World) (tag : string) : gset loc :=
  from_option dp_listeners ∅ (providers w !! tag).

(** A data manager with two providers and no listener yet: ["a"] holds
    one address, ["bad"] a line that is no address. *)
Definition two_providers : World :=
  mkWorld [] []
    (<["a" := mkDataProvider (list_byte_of_string "00:11:22:33:44:55
") ∅]>
     (<["bad" := mkDataProvider (list_byte_of_string "00:11:22:33:44
") ∅]> ∅)).

(** A character that is no letter is met after [lower] exactly where it
    was before. *)
Definition caseless (e : ascii) : Prop :=
  forall c, Ascii.eqb (lower_char c) e = Ascii.eqb c e.

(** A matcher type answers [false] on every input that is not six bytes
    long. *)
Definition fails_closed (W T : Type) `{LocalMatcher W T} : Prop :=
  forall (m : T) (w : W) (mac : HardwareAddr),
    length mac <> 6%nat -> Match m w mac = false.

(** [m'] matches whatever [m] matches. *)
Definition retains (m m' : Matcher) : Prop :=
  forall x, Matcher_Match m x = true -> Matcher_Match m' x = true.

(** The addresses on the address lines of a text, in the order of the
    lines. *)
Definition addresses (ls : list (list byte)) : list HardwareAddr :=
  omap (fun l => match classify l with Address hw => Some hw | _ => None end) ls.

(** A descriptor that names a provider, as opposed to a literal. *)
Definition is_provider (s : string) : bool := HasPrefix s "provider:".

(** The registrations of a construction: the provider's name and the
    cell, in the order they were made; the closer of each, and the cells
    registered under one name. *)
Definition deregister (r : string * loc) : World -> World :=
  DeleteListener r.1 r.2.

Definition cells_of (tag : string) (regs : list (string * loc)) : gset loc :=
  list_to_set (snd <$> filter (fun r => r.1 = tag) regs).

(** Every listener of every provider is a cell of the heap. *)
Definition listeners_allocated (w : World) : Prop :=
  forall tag l, l ∈ listeners w tag -> (l < length (cells w))%nat.

(** What a successful run of the loop of [BatchLoadMacProvider] has done,
    [regs] being its registrations in order. *)
Record loop_done (e : list string) (staticMatcher : loc)
    (mg mg' : LocalMatcherGroup World member) (w w' : World)
    (regs : list (string * loc)) : Prop := mk_loop_done {
  done_tags :
    regs.*1 = (fun s => TrimPrefix s "provider:")
              <$> filter (fun s => is_provider s = true) e;
  done_closer : closer mg' = closer mg ++ (deregister <$> regs);
  done_g : g mg' = g mg ++ (PtrDynamicMatcher <$> regs.*2);
  done_listeners :
    forall tag, listeners w' tag = cells_of tag regs ∪ listeners w tag;
  done_fresh : Forall (fun l => (length (cells w) <= l)%nat) regs.*2;
  done_NoDup : NoDup regs.*2;
  done_cells_frame :
    forall i, (i < length (cells w))%nat -> cells w' !! i = cells w !! i;
  done_data :
    forall tag, dp_data <$> providers w' !! tag = dp_data <$> providers w !! tag;
  done_cells :
    Forall (fun r => exists data m,
                dp_data <$> providers w !! r.1 = Some data
                /\ ParseTextMacFile data = (Some m, None)
                /\ cells w' !! r.2 = Some (mkDynamicMatcher parseFunc (Some m))) regs;
  done_static :
    forall m0, matchers w !! staticMatcher = Some m0 ->
      exists ms, matchers w' !! staticMatcher = Some ms
                 /\ BatchLoad m0 (filter (fun s => is_provider s = false) e)
                    = (ms, None)
}.

(** A printable ASCII character other than the space, and a text that
    begins and ends with one. *)
Definition graphic (b : byte) : bool :=
  (0x21 <=? Z.of_N (Byte.to_N b)) && (Z.of_N (Byte.to_N b) <=? 0x7e).

Definition starts_graphic (s : list byte) : bool :=
  match s with
  | b :: _ => graphic b
  | [] => false
  end.

Definition bare (t : string) : bool :=
  starts_graphic (list_byte_of_string t)
  && starts_graphic (reverse (list_byte_of_string t)).

#[global] Instance member_eq_dec : EqDecision member.
Proof. solve_decision. Defined.

(** [l.Update(b)] with [l] a pointer to a cell: what a provider calls on
    each of its listeners when its data has changed. *)
Definition Update_at (l : loc) (b : list byte) (w : World) : option error * World :=
  match cells w !! l with
  | Some d =>
      let '(d, err) := DynamicMatcher_Update d b in
      (err, mkWorld (matchers w) (<[l := d]> (cells w)) (providers w))
  | None => (None, w)
  end.

(** * Properties *)

(** ** Examples

    The cases of [macaddr_test.go] and of the text format, run on the
    embedding. *)

Example ParseMAC_lower :
  ParseMAC "aa:bb:cc:dd:ee:ff" = ([xaa; xbb; xcc; xdd; xee; xff], None).
Proof. reflexivity. Qed.

Example ParseMAC_upper :
  ParseMAC "AA:BB:CC:DD:EE:FF" = ([xaa; xbb; xcc; xdd; xee; xff], None).
Proof. reflexivity. Qed.

Example ParseMAC_dotted :
  ParseMAC "0000.5e00.5301" = ([x00; x00; x5e; x00; x53; x01], None).
Proof. reflexivity. Qed.

Example ParseMAC_eui64 :
  fst (ParseMAC "02:00:5e:10:00:00:00:01")
  = [x02; x00; x5e; x10; x00; x00; x00; x01].
Proof. reflexivity. Qed.

Example ParseMAC_short : snd (ParseMAC "00:11:22:33:44") <> None.
Proof. discriminate. Qed.

Example TestMatcher_Match :
  let m := Matcher_add NewMatcher (fst (ParseMAC "00:11:22:33:44:55")) in
  Matcher_Match m [x00; x11; x22; x33; x44; x55] = true
  /\ Matcher_Match m [x66; x77; x88; x99; xaa; xbb] = false
  /\ Matcher_Match m [x00; x11; x22; x33; x44] = false.
Proof. vm_compute. repeat split; reflexivity. Qed.

Example TestMatcher_Len :
  Matcher_Len NewMatcher = 0
  /\ Matcher_Len
       (foldl (fun m s => Matcher_add m (fst (ParseMAC s))) NewMatcher
          ["00:11:22:33:44:55"; "66:77:88:99:aa:bb"; "cc:dd:ee:ff:00:11"]) = 3.
Proof. vm_compute. split; reflexivity. Qed.

Example TestMatcher_CaseInsensitive :
  let m := fst (Matcher_Add NewMatcher "aa:bb:cc:dd:ee:ff" tt) in
  Matcher_Match m (fst (ParseMAC "Aa:Bb:Cc:Dd:Ee:Ff")) = true
  /\ Matcher_Len m = 1.
Proof. vm_compute. split; reflexivity. Qed.

Example ParseTextMacFile_comment :
  let r := ParseTextMacFile (list_byte_of_string "# comment

00:11:22:33:44:55
") in
  (Matcher_Len <$> fst r) = Some 1 /\ snd r = None.
Proof. vm_compute. split; reflexivity. Qed.

Example TrimSpace_nbsp :
  TrimSpace (string_of_list_byte [x20; xc2; xa0; x41; x20; xe3; x80; x80; x0d])
  = "A".
Proof. reflexivity. Qed.

(** ** The static set *)

Lemma copy6_six (mac : list byte) : length mac = 6%nat -> copy6 mac = mac.
Proof.
  intros Hlen. unfold copy6. rewrite Hlen, Nat.sub_diag. simpl replicate.
  rewrite app_nil_r. apply firstn_all2. lia.
Qed.

Lemma length_copy6 (mac : list byte) : length (copy6 mac) = 6%nat.
Proof. unfold copy6. rewrite length_app, length_take, length_replicate. lia. Qed.

Lemma blen_six {A} (b : list A) : (blen b =? 6) = true <-> length b = 6%nat.
Proof. unfold blen. rewrite Z.eqb_eq. lia. Qed.

Lemma Matcher_Match_spec (m : Matcher) (mac : list byte) :
  Matcher_Match m mac = true <-> length mac = 6%nat /\ is_Some (macs m !! mac).
Proof.
  unfold Matcher_Match.
  destruct (blen mac =? 6) eqn:E; simpl.
  - apply blen_six in E. rewrite (copy6_six _ E).
    destruct (macs m !! mac); split.
    + intros _. split; [exact E | eauto].
    + reflexivity.
    + discriminate.
    + intros [_ [x Hx]]. discriminate.
  - split; [discriminate |]. intros [Hlen _].
    apply blen_six in Hlen. congruence.
Qed.

Lemma Matcher_Add_inv (m m' : Matcher) (pattern : string) :
  Matcher_Add m pattern tt = (m', None) ->
  exists hw, ParseMAC pattern = (hw, None) /\ length hw = 6%nat
             /\ m' = mkMatcher (<[hw := tt]> (macs m)).
Proof.
  unfold Matcher_Add. destruct (ParseMAC pattern) as [hw [err|]]; [discriminate|].
  destruct (blen hw =? 6) eqn:E; simpl; [|discriminate].
  apply blen_six in E. intros [= <-]. exists hw. repeat split; [exact E|].
  unfold Matcher_add. by rewrite (copy6_six _ E).
Qed.

Lemma Matcher_Add_error (m : Matcher) (pattern : string) (err : error) :
  snd (Matcher_Add m pattern tt) = Some err -> fst (Matcher_Add m pattern tt) = m.
Proof.
  unfold Matcher_Add. destruct (ParseMAC pattern) as [hw [e|]]; [reflexivity|].
  destruct (blen hw =? 6); simpl; [discriminate | reflexivity].
Qed.

Lemma Matcher_add_six_byte_keys (m : Matcher) (mac : list byte) :
  six_byte_keys m -> six_byte_keys (Matcher_add m mac).
Proof.
  intros Hm k. unfold Matcher_add; simpl.
  destruct (decide (copy6 mac = k)) as [<-|Hne].
  - intros _. apply length_copy6.
  - rewrite lookup_insert_ne by exact Hne. apply Hm.
Qed.

Lemma built_six_byte_keys (m : Matcher) : built m -> six_byte_keys m.
Proof.
  induction 1 as [|m mac _ IH|m pattern _ IH].
  - intros k [x Hx]. simpl in Hx. by rewrite lookup_empty in Hx.
  - by apply Matcher_add_six_byte_keys.
  - unfold Matcher_Add. destruct (ParseMAC pattern) as [hw [e|]]; [exact IH|].
    destruct (blen hw =? 6); simpl; [|exact IH].
    by apply Matcher_add_six_byte_keys.
Qed.

(** C4.  [Matcher.Match] is a total function to [bool]; it is [false] on
    every input that is not six bytes long, whatever the set holds, and on
    a six-byte input it is [true] exactly when that value is a key of
    the set. *)
Theorem Matcher_Match_fails_closed (m : Matcher) (mac : HardwareAddr) :
  (length mac <> 6%nat -> Matcher_Match m mac = false)
  /\ (length mac = 6%nat ->
      (Matcher_Match m mac = true <-> is_Some (macs m !! mac))).
Proof.
  split.
  - intros Hlen. destruct (Matcher_Match m mac) eqn:E; [|reflexivity].
    apply Matcher_Match_spec in E. tauto.
  - intros Hlen. rewrite Matcher_Match_spec. tauto.
Qed.

Lemma Matcher_Match_fails_closed_witness :
  let m := Matcher_add NewMatcher [x00; x11; x22; x33; x44; x55] in
  Matcher_Match m [x00; x11; x22; x33; x44] = false
  /\ (Matcher_Match m [x00; x11; x22; x33; x44; x55] = true
      <-> is_Some (macs m !! [x00; x11; x22; x33; x44; x55])).
Proof.
  intros m. split.
  - apply (proj1 (Matcher_Match_fails_closed m [x00; x11; x22; x33; x44])).
    simpl. lia.
  - apply (proj2 (Matcher_Match_fails_closed m [x00; x11; x22; x33; x44; x55])).
    reflexivity.
Defined.

(** C7.  [Matcher.Add] returns an error and leaves the set as it was when
    the literal does not parse and when it parses to an address that is
    not six bytes long (an EUI-64 literal for one); when it succeeds the
    key it inserts is the parsed address itself, six bytes long, neither
    cut nor padded; and every key of a matcher built by the package is six
    bytes long. *)
Theorem Matcher_Add_six_bytes_only :
  (forall m pattern,
      snd (ParseMAC pattern) <> None \/ length (fst (ParseMAC pattern)) <> 6%nat ->
      exists err, Matcher_Add m pattern tt = (m, Some err))
  /\ (forall m pattern m',
      Matcher_Add m pattern tt = (m', None) ->
      exists hw, ParseMAC pattern = (hw, None) /\ length hw = 6%nat
                 /\ macs m' = <[hw := tt]> (macs m))
  /\ (forall m, built m -> forall k, is_Some (macs m !! k) -> length k = 6%nat)
  /\ Matcher_Add NewMatcher "02:00:5e:10:00:00:00:01" tt
     = (NewMatcher, Some (Errorf "MAC address must be 6 bytes, got %d" [OpD 8])).
Proof.
  split; [|split; [|split]].
  - intros m pattern Hbad. unfold Matcher_Add.
    destruct (ParseMAC pattern) as [hw [e|]]; simpl in *; [eauto|].
    destruct (blen hw =? 6) eqn:E; simpl; [|eauto].
    apply blen_six in E. destruct Hbad; congruence.
  - intros m pattern m' HAdd.
    destruct (Matcher_Add_inv _ _ _ HAdd) as (hw & Hp & Hlen & ->). eauto.
  - intros m Hm. by apply built_six_byte_keys.
  - reflexivity.
Qed.

Lemma Matcher_Add_six_bytes_only_witness :
  (exists err, Matcher_Add NewMatcher "00:11:22:33:44" tt = (NewMatcher, Some err))
  /\ (exists hw, ParseMAC "aa:bb:cc:dd:ee:ff" = (hw, None) /\ length hw = 6%nat
                 /\ macs (fst (Matcher_Add NewMatcher "aa:bb:cc:dd:ee:ff" tt))
                    = <[hw := tt]> (macs NewMatcher))
  /\ (forall k, is_Some (macs (fst (Matcher_Add NewMatcher "aa:bb:cc:dd:ee:ff" tt)) !! k)
                -> length k = 6%nat).
Proof.
  destruct Matcher_Add_six_bytes_only as (Hrej & Hins & Hinv & _).
  split; [|split].
  - apply Hrej. left. discriminate.
  - apply (Hins NewMatcher). reflexivity.
  - apply Hinv. apply built_Add, built_NewMatcher.
Defined.

(** ** Letter case and [ParseMAC] *)

Lemma length_lower (s : string) : String.length (lower s) = String.length s.
Proof. induction s; simpl; congruence. Qed.

Lemma len_lower (s : string) : len (lower s) = len s.
Proof. unfold len. by rewrite length_lower. Qed.

Lemma lower_char_zero : lower_char zero = zero.
Proof. reflexivity. Qed.

Lemma at_lower (s : string) (i : nat) : at_ (lower s) i = lower_char (at_ s i).
Proof.
  unfold at_. revert i. induction s as [|c s IH]; intros [|i]; simpl; try reflexivity.
  apply IH.
Qed.

Lemma from_lower (x : nat) (s : string) : from x (lower s) = lower (from x s).
Proof. revert s. induction x as [|x IH]; intros [|c s]; simpl; auto. Qed.

Lemma upto_lower (n : nat) (s : string) : upto n (lower s) = lower (upto n s).
Proof.
  revert s. induction n as [|n IH]; intros [|c s]; simpl; auto.
  by rewrite IH.
Qed.

Lemma slice_lower (a b : nat) (s : string) :
  slice a b (lower s) = lower (slice a b s).
Proof. unfold slice. by rewrite from_lower, upto_lower. Qed.

(** A fact about one character: try all 256. *)
Ltac by_ascii_cases c := destruct c as [[] [] [] [] [] [] [] []]; reflexivity.

Lemma hexval_lower_char (c : ascii) : hexval (lower_char c) = hexval c.
Proof. by_ascii_cases c. Qed.

Lemma caseless_colon : caseless ":".
Proof. intros c. by_ascii_cases c. Qed.

Lemma caseless_hyphen : caseless "-".
Proof. intros c. by_ascii_cases c. Qed.

Lemma caseless_dot : caseless ".".
Proof. intros c. by_ascii_cases c. Qed.

Lemma caseless_zero : caseless zero.
Proof. intros c. by_ascii_cases c. Qed.

Lemma caseless_eq (c e : ascii) : caseless e -> Ascii.eqb c e = true -> lower_char c = e.
Proof.
  intros He Hc. apply Ascii.eqb_eq. by rewrite He.
Qed.

Lemma xtoi_loop_lower (s : string) (n i : Z) :
  xtoi_loop (lower s) n i = xtoi_loop s n i.
Proof.
  revert n i. induction s as [|c s IH]; intros n i; simpl; [reflexivity|].
  rewrite hexval_lower_char. destruct (hexval c); [|reflexivity].
  destruct (big <=? n * 16 + z); [reflexivity | apply IH].
Qed.

Lemma xtoi2_lower (s : string) (e : ascii) :
  caseless e -> xtoi2 (lower s) e = xtoi2 s e.
Proof.
  intros He. unfold xtoi2, xtoi.
  by rewrite len_lower, at_lower, He, upto_lower, xtoi_loop_lower.
Qed.

Lemma ParseMAC_sep_lower (n : nat) (s : string) (x : nat) :
  caseless (at_ s 2) -> ParseMAC_sep n (lower s) x = ParseMAC_sep n s x.
Proof.
  intros He. revert x. induction n as [|n IH]; intros x; simpl; [reflexivity|].
  rewrite from_lower, at_lower.
  assert (lower_char (at_ s 2) = at_ s 2) as ->.
  { apply caseless_eq; [exact He | apply Ascii.eqb_refl]. }
  rewrite (xtoi2_lower _ _ He). destruct (xtoi2 (from x s) (at_ s 2)) as [b []].
  - by rewrite IH.
  - reflexivity.
Qed.

Lemma ParseMAC_dot_lower (n : nat) (s : string) (x : nat) :
  caseless (at_ s 4) -> ParseMAC_dot n (lower s) x = ParseMAC_dot n s x.
Proof.
  intros He. revert x. induction n as [|n IH]; intros x; simpl; [reflexivity|].
  rewrite slice_lower, from_lower, at_lower.
  assert (lower_char (at_ s 4) = at_ s 4) as ->.
  { apply caseless_eq; [exact He | apply Ascii.eqb_refl]. }
  rewrite (xtoi2_lower _ _ caseless_zero), (xtoi2_lower _ _ He).
  destruct (xtoi2 (slice x (x + 2) s) zero) as [b0 []]; [|reflexivity].
  destruct (xtoi2 (from (x + 2) s) (at_ s 4)) as [b1 []]; [|reflexivity].
  by rewrite IH.
Qed.

(** [ParseMAC] reads a literal and its lower-case form alike: the same
    address, or an error for both. *)
Lemma ParseMAC_lower_ok (s : string) (hw : list byte) :
  ParseMAC (lower s) = (hw, None) <-> ParseMAC s = (hw, None).
Proof.
  unfold ParseMAC. rewrite len_lower, !at_lower.
  rewrite caseless_colon, caseless_hyphen, caseless_dot.
  destruct (len s <? 14); [by unfold ParseMAC_error|].
  destruct (Ascii.eqb (at_ s 2) ":") eqn:E1; simpl.
  - apply Ascii.eqb_eq in E1.
    rewrite ParseMAC_sep_lower by (rewrite E1; apply caseless_colon).
    repeat (match goal with |- context [if ?b then _ else _] => destruct b end;
            try (by unfold ParseMAC_error)).
    destruct (ParseMAC_sep _ s 0); by unfold ParseMAC_error.
  - destruct (Ascii.eqb (at_ s 2) "-") eqn:E2; simpl.
    + apply Ascii.eqb_eq in E2.
      rewrite ParseMAC_sep_lower by (rewrite E2; apply caseless_hyphen).
      repeat (match goal with |- context [if ?b then _ else _] => destruct b end;
              try (by unfold ParseMAC_error)).
      destruct (ParseMAC_sep _ s 0); by unfold ParseMAC_error.
    + destruct (Ascii.eqb (at_ s 4) ".") eqn:E3; [|by unfold ParseMAC_error].
      apply Ascii.eqb_eq in E3.
      rewrite ParseMAC_dot_lower by (rewrite E3; apply caseless_dot).
      repeat (match goal with |- context [if ?b then _ else _] => destruct b end;
              try (by unfold ParseMAC_error)).
      destruct (ParseMAC_dot _ s 0); by unfold ParseMAC_error.
Qed.

Lemma ParseMAC_case_variant (L L' : string) (hw : list byte) :
  case_variant L L' -> ParseMAC L = (hw, None) -> ParseMAC L' = (hw, None).
Proof.
  unfold case_variant. intros Hv HL.
  apply ParseMAC_lower_ok. rewrite <- Hv. by apply ParseMAC_lower_ok.
Qed.

(** C6.  After [Add(L)] has succeeded, [Match] is [true] on the address
    that [ParseMAC] reads from any case variant [L'] of [L]: the variant
    parses, to the very key that [Add] stored. *)
Theorem Matcher_Add_Match_any_case (m m' : Matcher) (L L' : string) :
  Matcher_Add m L tt = (m', None) ->
  case_variant L L' ->
  exists mac, ParseMAC L' = (mac, None) /\ Matcher_Match m' mac = true.
Proof.
  intros HAdd Hv.
  destruct (Matcher_Add_inv _ _ _ HAdd) as (hw & Hp & Hlen & ->).
  exists hw. split; [by apply (ParseMAC_case_variant L) |].
  apply Matcher_Match_spec. split; [exact Hlen|].
  simpl. rewrite lookup_insert_eq. eauto.
Qed.

Lemma Matcher_Add_Match_any_case_witness :
  exists mac, ParseMAC "Aa:Bb:Cc:Dd:Ee:Ff" = (mac, None)
              /\ Matcher_Match (fst (Matcher_Add NewMatcher "aa:BB:cc:dd:ee:ff" tt)) mac
                 = true.
Proof.
  apply (Matcher_Add_Match_any_case NewMatcher _ "aa:BB:cc:dd:ee:ff"); reflexivity.
Defined.

(** ** The reloadable cell *)

Section DynamicMatcher_properties.
Context {W M : Type} `{LocalMatcher W M}.

Lemma DynamicMatcher_Update_error (d : DynamicMatcher M) (b : list byte) (err : error) :
  snd (parserFunc d b) = Some err -> DynamicMatcher_Update d b = (d, Some err).
Proof.
  unfold DynamicMatcher_Update. destruct (parserFunc d b) as [m e]; simpl.
  by intros ->.
Qed.

Lemma DynamicMatcher_Update_failed (d : DynamicMatcher M) (b : list byte) (err : error) :
  snd (DynamicMatcher_Update d b) = Some err -> fst (DynamicMatcher_Update d b) = d.
Proof.
  unfold DynamicMatcher_Update. destruct (parserFunc d b) as [m [e|]]; simpl.
  - reflexivity.
  - discriminate.
Qed.

Lemma never_updated_empty (d : DynamicMatcher M) : never_updated d -> m_ d = None.
Proof.
  induction 1 as [pf|d b err _ IH Herr]; [reflexivity|].
  by rewrite (DynamicMatcher_Update_failed _ _ _ Herr).
Qed.

(** C2.  When the parser function fails on [b], [Update(b)] returns the
    parser's error and the cell it leaves is the cell it found; with a
    snapshot [snap] installed before, [Match] and [Len] after the failed
    [Update] are still those of [snap]. *)
Theorem DynamicMatcher_Update_failure_keeps_snapshot
    (d : DynamicMatcher M) (snap : M) (b : list byte) (err : error) :
  m_ d = Some snap ->
  snd (parserFunc d b) = Some err ->
  snd (DynamicMatcher_Update d b) = Some err
  /\ fst (DynamicMatcher_Update d b) = d
  /\ forall (w : W) (mac : HardwareAddr),
      Match (fst (DynamicMatcher_Update d b)) w mac = Match d w mac
      /\ Match (fst (DynamicMatcher_Update d b)) w mac = Match snap w mac
      /\ Len (fst (DynamicMatcher_Update d b)) w = Len d w
      /\ Len (fst (DynamicMatcher_Update d b)) w = Len snap w.
Proof.
  intros Hsnap Herr. rewrite (DynamicMatcher_Update_error _ _ _ Herr). simpl.
  repeat split; unfold DynamicMatcher_Match, DynamicMatcher_Len; by rewrite ?Hsnap.
Qed.

(** C5.  On a cell on which no [Update] has succeeded, [Match] is
    [false] on every input, [Len] is [0], and [Close] returns [nil] and
    changes nothing. *)
Theorem DynamicMatcher_never_updated (d : DynamicMatcher M) :
  never_updated d ->
  forall (w : W) (mac : HardwareAddr),
    Match d w mac = false /\ Len d w = 0 /\ Close d w = (w, None).
Proof.
  intros Hd w mac. apply never_updated_empty in Hd. simpl.
  unfold DynamicMatcher_Match, DynamicMatcher_Len, DynamicMatcher_Close.
  by rewrite Hd.
Qed.
End DynamicMatcher_properties.

(** ** The matcher group *)

Section LocalMatcherGroup_properties.
Context {W T : Type} `{LocalMatcher W T}.

Lemma Match_loop_true (g : list T) (w : W) (mac : HardwareAddr) :
  Match_loop g w mac = true <-> exists m, m ∈ g /\ Match m w mac = true.
Proof.
  induction g as [|m g IH]; simpl.
  - split; [discriminate|]. intros (m & Hm & _). by apply elem_of_nil in Hm.
  - destruct (Match m w mac) eqn:E.
    + split; [|reflexivity]. intros _. exists m. split; [left | exact E].
    + rewrite IH. split.
      * intros (x & Hx & Hmx). exists x. split; [by right | exact Hmx].
      * intros (x & Hx & Hmx). apply elem_of_cons in Hx as [->|Hx]; [congruence|].
        eauto.
Qed.

End LocalMatcherGroup_properties.

(** ** The group, call by call *)

Section Calls_properties.
Context {W T : Type} `{Calls.LocalMatcher W T}.

Lemma Calls_Match_loop_cons (m : T) (g : list T) (mac : HardwareAddr) (w : W) :
  Calls.Match_loop (m :: g) mac w
  = match Calls.Match m mac w with
    | (returned true, w1) => (returned true, w1)
    | (returned false, w1) => Calls.Match_loop g mac w1
    | (panicked v, w1) => (panicked v, w1)
    end.
Proof.
  cbn [Calls.Match_loop]. unfold call_bind.
  by destruct (Calls.Match m mac w) as [[[]|v] w1].
Qed.

Lemma passed_over_Match_loop (pre rest : list T) (mac : HardwareAddr) (w w1 : W) :
  passed_over mac pre w w1 ->
  Calls.Match_loop (pre ++ rest) mac w = Calls.Match_loop rest mac w1.
Proof.
  induction 1 as [w|m ms w w1 w2 Hm _ IH]; [reflexivity|].
  rewrite <- app_comm_cons, Calls_Match_loop_cons, Hm. exact IH.
Qed.

Lemma Calls_Match_loop_scan (g : list T) (mac : HardwareAddr) (w : W) :
  match Calls.Match_loop g mac w with
  | (returned false, w') => passed_over mac g w w'
  | (r, w') =>
      exists pre m post w1,
        g = pre ++ m :: post /\ passed_over mac pre w w1
        /\ Calls.Match m mac w1 = (r, w')
  end.
Proof.
  revert w. induction g as [|m g IH]; intros w.
  - constructor.
  - rewrite Calls_Match_loop_cons.
    destruct (Calls.Match m mac w) as [[[]|v] w1] eqn:E.
    + exists [], m, g, w. split; [reflexivity|]. split; [constructor | exact E].
    + specialize (IH w1).
      destruct (Calls.Match_loop g mac w1) as [[[]|v] w'].
      * destruct IH as (pre & x & post & w2 & -> & Hpre & Hx).
        exists (m :: pre), x, post, w2.
        split; [reflexivity|]. split; [by econstructor | exact Hx].
      * by econstructor.
      * destruct IH as (pre & x & post & w2 & -> & Hpre & Hx).
        exists (m :: pre), x, post, w2.
        split; [reflexivity|]. split; [by econstructor | exact Hx].
    + exists [], m, g, w. split; [reflexivity|]. split; [constructor | exact E].
Qed.

Lemma Calls_Close_loop_cons (f : call W unit) (fs : list (call W unit)) (w : W) :
  Calls.Close_loop (f :: fs) w
  = match f w with
    | (returned _, w1) => Calls.Close_loop fs w1
    | (panicked v, w1) => (panicked v, w1)
    end.
Proof. reflexivity. Qed.

Lemma ran_Close_loop (pre rest : list (call W unit)) (w w1 : W) :
  ran pre w w1 -> Calls.Close_loop (pre ++ rest) w = Calls.Close_loop rest w1.
Proof.
  induction 1 as [w|f fs w w1 w2 Hf _ IH]; [reflexivity|].
  rewrite <- app_comm_cons, Calls_Close_loop_cons, Hf. exact IH.
Qed.

Lemma Calls_Close_loop_run (fs : list (call W unit)) (w : W) :
  match Calls.Close_loop fs w with
  | (returned _, w') => ran fs w w'
  | (panicked v, w') =>
      exists pre f post w1,
        fs = pre ++ f :: post /\ ran pre w w1 /\ f w1 = (panicked v, w')
  end.
Proof.
  revert w. induction fs as [|f fs IH]; intros w.
  - constructor.
  - rewrite Calls_Close_loop_cons. destruct (f w) as [[[]|v] w1] eqn:E.
    + specialize (IH w1). destruct (Calls.Close_loop fs w1) as [[[]|v] w'].
      * by econstructor.
      * destruct IH as (pre & x & post & w2 & -> & Hpre & Hx).
        exists (f :: pre), x, post, w2.
        split; [reflexivity|]. split; [by econstructor | exact Hx].
    + exists [], f, fs, w. split; [reflexivity|]. split; [constructor | exact E].
Qed.

Lemma Calls_closer_AppendCloser_all (mg : Calls.LocalMatcherGroup W T)
    (fs : list (call W unit)) :
  Calls.closer (foldl Calls.AppendCloser mg fs) = Calls.closer mg ++ fs.
Proof.
  revert mg. induction fs as [|f fs IH]; intros mg; simpl.
  - by rewrite app_nil_r.
  - rewrite IH. simpl. by rewrite <- app_assoc.
Qed.
End Calls_properties.

Lemma Match_loop_reading {W T} `{LocalMatcher W T} (g : list T)
    (mac : HardwareAddr) (w : W) :
  Calls.Match_loop (H := reading) g mac w = (returned (Match_loop g w mac), w).
Proof.
  induction g as [|m g IH]; [reflexivity|].
  rewrite Calls_Match_loop_cons. cbn [Calls.Match reading Match_loop].
  by destruct (Match m w mac).
Qed.

Lemma Close_loop_returning {W} (fs : list (W -> W)) (w : W) :
  Calls.Close_loop (returning <$> fs) w = (returned tt, Close_loop fs w).
Proof.
  revert w. induction fs as [|f fs IH]; intros w; [reflexivity|].
  cbn [fmap list_fmap]. rewrite Calls_Close_loop_cons. cbn [returning Close_loop].
  apply IH.
Qed.

Lemma Match_loop_probes (ps : list probe) (mac : HardwareAddr) (log : list nat) :
  Calls.Match_loop ps mac log
  = (returned (existsb answer ps), log ++ (number <$> upto_first answer ps)).
Proof.
  revert log. induction ps as [|p ps IH]; intros log.
  - cbn. by rewrite app_nil_r.
  - rewrite Calls_Match_loop_cons. cbn [Calls.Match probe_LocalMatcher].
    cbn [existsb upto_first fmap list_fmap].
    destruct (answer p); cbn [orb].
    + reflexivity.
    + rewrite IH. by rewrite <- app_assoc.
Qed.

Lemma Close_loop_numbered (fates : list bool) (k : nat) (log : list nat) :
  Calls.Close_loop (imap (fun i => numbered_closer (k + i)) fates) log
  = (if existsb id fates then panicked "closer failed" else returned tt,
     log ++ seq k (length (upto_first id fates))).
Proof.
  revert k log. induction fates as [|b fates IH]; intros k log.
  - cbn. by rewrite app_nil_r.
  - cbn [imap]. rewrite Calls_Close_loop_cons. unfold numbered_closer at 1.
    rewrite Nat.add_0_r. cbn [existsb upto_first id].
    destruct b; cbn [orb length seq].
    + reflexivity.
    + rewrite (imap_ext _ (fun i => numbered_closer (S k + i))); last first.
      { intros i x _. simpl. f_equal. lia. }
      rewrite IH. by rewrite <- app_assoc.
Qed.

(** C8.  The group's [Match], called in a state [w] on members whose
    [Match] is any call, returns [true] exactly when the members split
    into members that, called one after the other from [w] in the order
    of insertion, each return [false], a member that then returns [true],
    and the members after it; the state [Match] leaves is the state that
    member left, so no member after the first match is called.  It
    returns [false] exactly when every member, called in that order,
    returns [false], and it panics exactly when the first member that
    does not return [false] panics.  On members that count their calls,
    the result is [true] exactly when some member answers [true], and the
    calls made are those of the members up to and including the first
    that does, in insertion order, each once.  On members whose [Match]
    reads the state, the result is that of [LocalMatcherGroup_Match],
    with the state unchanged: [true] exactly when some member's [Match]
    is [true], and [false] exactly when every member's is [false]. *)
Theorem LocalMatcherGroup_Match_scans_to_first_match {W T}
    `{Calls.LocalMatcher W T}
    (mg : Calls.LocalMatcherGroup W T) (mac : HardwareAddr) (w : W) :
  (forall w',
      Calls.LocalMatcherGroup_Match mg mac w = (returned true, w')
      <-> exists pre m post w1,
            Calls.g mg = pre ++ m :: post /\ passed_over mac pre w w1
            /\ Calls.Match m mac w1 = (returned true, w'))
  /\ (forall w',
        Calls.LocalMatcherGroup_Match mg mac w = (returned false, w')
        <-> passed_over mac (Calls.g mg) w w')
  /\ (forall v w',
        Calls.LocalMatcherGroup_Match mg mac w = (panicked v, w')
        <-> exists pre m post w1,
              Calls.g mg = pre ++ m :: post /\ passed_over mac pre w w1
              /\ Calls.Match m mac w1 = (panicked v, w'))
  /\ (forall (ps : list probe) (cl : list (call (list nat) unit)) (log : list nat),
        Calls.LocalMatcherGroup_Match (Calls.mkLocalMatcherGroup ps cl) mac log
        = (returned (existsb answer ps),
           log ++ (number <$> upto_first answer ps)))
  /\ (forall (T' : Type) (L : LocalMatcher W T') (pg : LocalMatcherGroup W T'),
        Calls.LocalMatcherGroup_Match (H := reading) (calls_of pg) mac w
        = (returned (LocalMatcherGroup_Match pg w mac), w)
        /\ (LocalMatcherGroup_Match pg w mac = true
            <-> exists m, m ∈ g pg /\ Match m w mac = true)
        /\ (LocalMatcherGroup_Match pg w mac = false
            <-> forall m, m ∈ g pg -> Match m w mac = false)).
Proof.
  unfold Calls.LocalMatcherGroup_Match.
  pose proof (Calls_Match_loop_scan (Calls.g mg) mac w) as Hscan.
  split; [|split; [|split; [|split]]].
  - intros w'. split.
    + intros E. by rewrite E in Hscan.
    + intros (pre & m & post & w1 & -> & Hpre & Hm).
      by rewrite (passed_over_Match_loop _ _ _ _ _ Hpre), Calls_Match_loop_cons, Hm.
  - intros w'. split.
    + intros E. by rewrite E in Hscan.
    + intros Hall. rewrite <- (app_nil_r (Calls.g mg)).
      by rewrite (passed_over_Match_loop _ _ _ _ _ Hall).
  - intros v w'. split.
    + intros E. by rewrite E in Hscan.
    + intros (pre & m & post & w1 & -> & Hpre & Hm).
      by rewrite (passed_over_Match_loop _ _ _ _ _ Hpre), Calls_Match_loop_cons, Hm.
  - intros ps cl log. apply Match_loop_probes.
  - intros T' L pg. unfold LocalMatcherGroup_Match. split; [|split].
    + apply Match_loop_reading.
    + apply Match_loop_true.
    + split.
      * intros Hf m Hm. destruct (Match m w mac) eqn:E; [|reflexivity].
        rewrite <- Hf. symmetry. apply Match_loop_true. eauto.
      * intros Hall. destruct (Match_loop (g pg) w mac) eqn:E; [|reflexivity].
        apply Match_loop_true in E as (m & Hm & Hmm).
        rewrite (Hall m Hm) in Hmm. discriminate.
Qed.

Lemma LocalMatcherGroup_Match_scans_to_first_match_witness :
  let mg := Calls.Append
              (Calls.Append
                 (Calls.Append (Calls.mkLocalMatcherGroup [] []) (mkProbe 0 false))
                 (mkProbe 1 true))
              (mkProbe 2 true) in
  Calls.LocalMatcherGroup_Match mg [x00; x11; x22; x33; x44; x55] []
  = (returned true, [0%nat; 1%nat]).
Proof.
  intros mg.
  apply (proj1 (LocalMatcherGroup_Match_scans_to_first_match
                  mg [x00; x11; x22; x33; x44; x55] [])).
  exists [mkProbe 0 false], (mkProbe 1 true), [mkProbe 2 true], [0%nat].
  split; [reflexivity|]. split; [|reflexivity].
  eapply passed_over_cons; [reflexivity | apply passed_over_nil].
Defined.

(** ** Closers *)

Lemma closer_AppendCloser_all {W T} (mg : LocalMatcherGroup W T) (fs : list (W -> W)) :
  closer (foldl AppendCloser mg fs) = closer mg ++ fs.
Proof.
  revert mg. induction fs as [|f fs IH]; intros mg; simpl.
  - by rewrite app_nil_r.
  - rewrite IH. simpl. by rewrite <- app_assoc.
Qed.

Lemma Close_loop_foldl {W} (fs : list (W -> W)) (w : W) :
  Close_loop fs w = foldl (fun w f => f w) w fs.
Proof. revert w. induction fs as [|f fs IH]; intros w; simpl; auto. Qed.

(** With two closers registered, the first of which records its call and
    panics, [Close] panics with that closer's value and the second closer
    is not called: its number is not in the log. *)
Lemma LocalMatcherGroup_Close_stops_at_panic :
  let mg : Calls.LocalMatcherGroup (list nat) Matcher :=
    Calls.AppendCloser
      (Calls.AppendCloser (Calls.mkLocalMatcherGroup [NewMatcher] [])
                          (numbered_closer 1 true))
      (numbered_closer 2 false) in
  Calls.LocalMatcherGroup_Close mg [] = (panicked "closer failed", [1%nat])
  /\ 2%nat ∉ snd (Calls.LocalMatcherGroup_Close mg []).
Proof.
  intros mg. split; [reflexivity|]. cbn.
  intros Hin. apply list_elem_of_singleton in Hin. discriminate.
Qed.

(** C9.  After the closers [fs] have been registered with [AppendCloser],
    in that order, the group holds them after those it held, in that
    order.  [Close], called in a state [w], returns exactly when the
    closers it holds, called one after the other from [w] in the order of
    registration, each once, all return; it then returns [nil] and leaves
    the state the last closer left.  It panics exactly when one of them
    panics after those before it have returned: with that closer's value,
    in the state that closer left, and no closer registered after it is
    called.  On closers that count their calls, the calls made are those
    of the closers up to and including the first that panics, in
    registration order, each once: all of them when none panics.  On
    closers that are functions on the state, [Close] returns [nil] in the
    state that applying them in order gives, as [LocalMatcherGroup_Close]
    does. *)
Theorem LocalMatcherGroup_Close_runs_closers_until_panic {W T}
    (mg : Calls.LocalMatcherGroup W T) (fs : list (call W unit)) (w : W) :
  Calls.closer (foldl Calls.AppendCloser mg fs) = Calls.closer mg ++ fs
  /\ (forall err w',
        Calls.LocalMatcherGroup_Close (foldl Calls.AppendCloser mg fs) w
        = (returned err, w')
        <-> err = None /\ ran (Calls.closer mg ++ fs) w w')
  /\ (forall v w',
        Calls.LocalMatcherGroup_Close (foldl Calls.AppendCloser mg fs) w
        = (panicked v, w')
        <-> exists pre f post w1,
              Calls.closer mg ++ fs = pre ++ f :: post /\ ran pre w w1
              /\ f w1 = (panicked v, w'))
  /\ (forall (members : list T) (fates : list bool) (log : list nat),
        Calls.LocalMatcherGroup_Close
          (foldl Calls.AppendCloser (Calls.mkLocalMatcherGroup members [])
                 (imap numbered_closer fates))
          log
        = (if existsb id fates then panicked "closer failed" else returned None,
           log ++ seq 0 (length (upto_first id fates))))
  /\ (forall (pg : LocalMatcherGroup W T) (hs : list (W -> W)),
        Calls.LocalMatcherGroup_Close (calls_of (foldl AppendCloser pg hs)) w
        = (returned None, foldl (fun w f => f w) w (closer pg ++ hs))
        /\ LocalMatcherGroup_Close (foldl AppendCloser pg hs) w
           = (foldl (fun w f => f w) w (closer pg ++ hs), None)).
Proof.
  unfold Calls.LocalMatcherGroup_Close, call_bind.
  rewrite Calls_closer_AppendCloser_all.
  pose proof (Calls_Close_loop_run (Calls.closer mg ++ fs) w) as Hrun.
  split; [reflexivity|]. split; [|split; [|split]].
  - intros err w'. split.
    + intros E.
      destruct (Calls.Close_loop (Calls.closer mg ++ fs) w) as [[[]|v] w1];
        [|discriminate].
      unfold call_ret in E. by simplify_eq.
    + intros [-> Hall]. rewrite <- (app_nil_r (Calls.closer mg ++ fs)).
      by rewrite (ran_Close_loop _ _ _ _ Hall).
  - intros v w'. split.
    + intros E.
      destruct (Calls.Close_loop (Calls.closer mg ++ fs) w) as [[[]|v1] w1];
        [discriminate|].
      by simplify_eq.
    + intros (pre & f & post & w1 & -> & Hpre & Hf).
      by rewrite (ran_Close_loop _ _ _ _ Hpre), Calls_Close_loop_cons, Hf.
  - intros members fates log. rewrite Calls_closer_AppendCloser_all.
    cbn [Calls.closer app]. rewrite (Close_loop_numbered fates 0).
    by destruct (existsb id fates).
  - intros pg hs. unfold calls_of, LocalMatcherGroup_Close.
    cbn [Calls.closer]. rewrite Close_loop_returning.
    by rewrite closer_AppendCloser_all, Close_loop_foldl.
Qed.

Lemma LocalMatcherGroup_Close_runs_closers_until_panic_witness :
  let mg : Calls.LocalMatcherGroup (list nat) Matcher :=
    Calls.mkLocalMatcherGroup [NewMatcher] [numbered_closer 0 false] in
  Calls.LocalMatcherGroup_Close
    (foldl Calls.AppendCloser mg [numbered_closer 1 false; numbered_closer 2 false]) []
  = (returned None, [0%nat; 1%nat; 2%nat]).
Proof.
  intros mg.
  apply (proj1 (proj2 (LocalMatcherGroup_Close_runs_closers_until_panic
                         mg [numbered_closer 1 false; numbered_closer 2 false] []))).
  split; [reflexivity|].
  repeat (eapply ran_cons; [reflexivity|]). apply ran_nil.
Defined.

(** ** White space *)

Lemma starts_with_app (p r : list byte) : starts_with p (p ++ r) = true.
Proof. induction p as [|a p IH]; simpl; [reflexivity|]. by rewrite decide_True. Qed.

Lemma starts_with_inv (p s : list byte) :
  starts_with p s = true -> exists r, s = p ++ r.
Proof.
  revert s. induction p as [|a p IH]; intros s; simpl.
  - intros _. by exists s.
  - destruct s as [|b s]; [discriminate|].
    destruct (decide (a = b)) as [->|]; [|discriminate].
    intros Hp. destruct (IH _ Hp) as [r ->]. by exists r.
Qed.

(** Two prefixes of one list: one is a prefix of the other. *)
Lemma starts_with_comparable (p q r r' : list byte) :
  p ++ r = q ++ r' -> starts_with p q = true \/ starts_with q p = true.
Proof.
  revert q. induction p as [|a p IH]; intros q; simpl; [by left|].
  destruct q as [|b q]; simpl; [by right|].
  intros [= -> Heq]. rewrite !decide_True by reflexivity. by apply IH.
Qed.

(** No white space code point is the start of another one. *)
Lemma white_space_prefix_free (e e' : list byte) :
  e ∈ white_space -> e' ∈ white_space -> starts_with e e' = true -> e = e'.
Proof.
  intros He He'.
  assert (forallb (fun a => forallb (fun b =>
            implb (starts_with a b) (bool_decide (a = b))) white_space) white_space
          = true) as Hall by (vm_compute; reflexivity).
  rewrite forallb_forall in Hall. apply list_elem_of_In in He, He'.
  specialize (Hall e He). rewrite forallb_forall in Hall. specialize (Hall e' He').
  intros Hs. rewrite Hs in Hall. simpl in Hall. by apply bool_decide_eq_true in Hall.
Qed.

Lemma white_space_nonempty (e : list byte) : e ∈ white_space -> (0 < length e)%nat.
Proof.
  intros He.
  assert (forallb (fun a => bool_decide (0 < length a)%nat) white_space = true)
    as Hall by (vm_compute; reflexivity).
  rewrite forallb_forall in Hall. apply list_elem_of_In in He.
  specialize (Hall e He). by apply bool_decide_eq_true in Hall.
Qed.

Lemma space_width_zero (s : list byte) :
  space_width s = 0%nat
  <-> forall e, e ∈ white_space -> starts_with e s = false.
Proof.
  unfold space_width.
  destruct (find (fun e => starts_with e s) white_space) as [e|] eqn:E.
  - apply find_some in E as [He Hs]. apply list_elem_of_In in He. split.
    + intros H0. pose proof (white_space_nonempty e He). lia.
    + intros Hall. rewrite (Hall e He) in Hs. discriminate.
  - split; [|reflexivity]. intros _ e He.
    apply (find_none _ _ E). by apply list_elem_of_In.
Qed.

Lemma space_width_white_space (e r : list byte) :
  e ∈ white_space -> space_width (e ++ r) = length e.
Proof.
  intros He. unfold space_width.
  destruct (find (fun e' => starts_with e' (e ++ r)) white_space) as [e'|] eqn:E.
  - apply find_some in E as [He' Hs]. apply list_elem_of_In in He'.
    apply starts_with_inv in Hs as [r' Hr'].
    destruct (starts_with_comparable _ _ _ _ Hr') as [Hc|Hc].
    + by rewrite (white_space_prefix_free _ _ He He' Hc).
    + by rewrite (white_space_prefix_free _ _ He' He Hc).
  - apply list_elem_of_In in He. pose proof (find_none _ _ E e He) as Hn.
    simpl in Hn. by rewrite starts_with_app in Hn.
Qed.

Lemma TrimLeft_loop_nil (fuel : nat) : TrimLeft_loop fuel [] = [].
Proof. by destruct fuel. Qed.

Lemma TrimLeft_loop_white_space (es : list (list byte)) (fuel : nat) :
  Forall (fun e => e ∈ white_space) es ->
  (length es <= fuel)%nat ->
  TrimLeft_loop fuel (concat es) = [].
Proof.
  intros Hes. revert fuel.
  induction Hes as [|e es He _ IH]; intros fuel Hfuel; simpl.
  - apply TrimLeft_loop_nil.
  - destruct fuel as [|fuel]; [simpl in Hfuel; lia|]. simpl.
    rewrite (space_width_white_space _ _ He).
    pose proof (white_space_nonempty e He).
    destruct (length e) as [|k] eqn:Ek; [lia|].
    rewrite <- Ek, drop_app_length. apply IH. simpl in Hfuel. lia.
Qed.

Lemma length_concat_white_space (es : list (list byte)) :
  Forall (fun e => e ∈ white_space) es -> (length es <= length (concat es))%nat.
Proof.
  induction 1 as [|e es He _ IH]; simpl; [lia|].
  rewrite length_app. pose proof (white_space_nonempty e He). lia.
Qed.

Lemma TrimSpace_whitespace_only (s : string) :
  whitespace_only s -> TrimSpace s = "".
Proof.
  intros (es & Hes & Hs). unfold TrimSpace, TrimLeft. rewrite Hs.
  rewrite TrimLeft_loop_white_space;
    [reflexivity | exact Hes | by apply length_concat_white_space].
Qed.

Lemma HasPrefix_whitespace_only (s : string) :
  whitespace_only s -> HasPrefix s "provider:" = false.
Proof.
  intros (es & Hes & Hs). destruct s as [|c s]; [reflexivity|].
  destruct Hes as [|e es He _]; [discriminate|].
  change (HasPrefix (String c s) "provider:")
    with (Ascii.eqb "p" c && HasPrefix s "rovider:").
  destruct (Ascii.eqb "p" c) eqn:Ec; [|reflexivity].
  apply Ascii.eqb_eq in Ec. subst c. exfalso.
  assert (forallb (fun a => match a with x70 :: _ | [] => false | _ => true end)
            white_space = true) as Hall by (vm_compute; reflexivity).
  rewrite forallb_forall in Hall. apply list_elem_of_In in He.
  specialize (Hall e He). destruct e as [|b e]; [discriminate|].
  change (list_byte_of_string (String "p" s))
    with (x70 :: list_byte_of_string s) in Hs.
  simpl in Hs. injection Hs as <- _. discriminate.
Qed.

(** ** Entries of white space *)

Lemma Load_whitespace_only {T} `{LocalWriteableMatcher T} (m : T) (s : string) :
  whitespace_only s -> Load m s = (m, None).
Proof. intros Hs. unfold Load. by rewrite (TrimSpace_whitespace_only _ Hs). Qed.

Lemma BatchLoad_whitespace_only {T} `{LocalWriteableMatcher T}
    (m : T) (s : string) (b1 b2 : list string) :
  whitespace_only s -> BatchLoad m (b1 ++ s :: b2) = BatchLoad m (b1 ++ b2).
Proof.
  intros Hs. revert m. induction b1 as [|x b1 IH]; intros m; simpl.
  - by rewrite (Load_whitespace_only _ _ Hs).
  - destruct (Load m x) as [m' [err|]]; [reflexivity | apply IH].
Qed.

Lemma Load_at_whitespace_only (p : loc) (s : string) (w : World) :
  whitespace_only s -> Load_at p s w = (None, w).
Proof.
  intros Hs. unfold Load_at. destruct (matchers w !! p) as [m|] eqn:E; [|reflexivity].
  rewrite (Load_whitespace_only _ _ Hs), (list_insert_id _ _ _ E).
  by destruct w.
Qed.

Lemma BatchLoadMacProvider_loop_whitespace_only
    (s : string) (e1 e2 : list string) (staticMatcher : loc)
    (mg : LocalMatcherGroup World member) (w : World) :
  whitespace_only s ->
  BatchLoadMacProvider_loop (e1 ++ s :: e2) staticMatcher mg w
  = BatchLoadMacProvider_loop (e1 ++ e2) staticMatcher mg w.
Proof.
  intros Hs. revert mg w. induction e1 as [|x e1 IH]; intros mg w.
  - simpl. by rewrite (HasPrefix_whitespace_only _ Hs), (Load_at_whitespace_only _ _ _ Hs).
  - rewrite <- !app_comm_cons.
    cbn [BatchLoadMacProvider_loop].
    destruct (HasPrefix x "provider:").
    + destruct (GetDataProvider w _); [|reflexivity].
      destruct (new_DynamicMatcher _ w) as [dmMatcher w1].
      destruct (LoadAndAddListener _ dmMatcher w1) as [[err|] w2]; [reflexivity|].
      apply IH.
    + destruct (Load_at staticMatcher x w) as [[err|] w1]; [reflexivity | apply IH].
Qed.

(** C10.  On a string of white space only (the empty string for one)
    [Load] returns [nil] and the matcher it was given, whatever [Add] the
    matcher has: [Add] is not called.  So [BatchLoad] and
    [BatchLoadMacProvider] give, on a list with such an entry, the result,
    the matchers and the state they give on the list without it. *)
Theorem Load_skips_whitespace_only (s : string) :
  whitespace_only s ->
  (forall (T : Type) (I : LocalWriteableMatcher T) (m : T), Load m s = (m, None))
  /\ (forall (T : Type) (I : LocalWriteableMatcher T) (m : T) (b1 b2 : list string),
         BatchLoad m (b1 ++ s :: b2) = BatchLoad m (b1 ++ b2))
  /\ (forall (e1 e2 : list string) (w : World),
         BatchLoadMacProvider (e1 ++ s :: e2) w = BatchLoadMacProvider (e1 ++ e2) w).
Proof.
  intros Hs. split; [|split].
  - intros T I m. by apply Load_whitespace_only.
  - intros T I m b1 b2. by apply BatchLoad_whitespace_only.
  - intros e1 e2 w. unfold BatchLoadMacProvider.
    destruct (new_Matcher NewMatcher w) as [staticMatcher w1].
    by apply BatchLoadMacProvider_loop_whitespace_only.
Qed.

Lemma Load_skips_whitespace_only_witness :
  let s := string_of_list_byte [x20; x09; xc2; xa0] in
  (forall (T : Type) (I : LocalWriteableMatcher T) (m : T), Load m s = (m, None))
  /\ (forall (T : Type) (I : LocalWriteableMatcher T) (m : T) (b1 b2 : list string),
         BatchLoad m (b1 ++ s :: b2) = BatchLoad m (b1 ++ b2))
  /\ (forall (e1 e2 : list string) (w : World),
         BatchLoadMacProvider (e1 ++ s :: e2) w = BatchLoadMacProvider (e1 ++ e2) w).
Proof.
  intros s. apply (Load_skips_whitespace_only s).
  exists [[x20]; [x09]; [xc2; xa0]]. split; [|reflexivity].
  repeat constructor; apply list_elem_of_In; simpl; tauto.
Defined.

(** ** [TrimSpace] leaves nothing to trim *)

Lemma space_width_last_zero (s : list byte) :
  space_width_last s = 0%nat
  <-> forall e, e ∈ white_space -> starts_with (reverse e) (reverse s) = false.
Proof.
  unfold space_width_last.
  destruct (find (fun e => starts_with (reverse e) (reverse s)) white_space)
    as [e|] eqn:E.
  - apply find_some in E as [He Hs]. apply list_elem_of_In in He. split.
    + intros H0. pose proof (white_space_nonempty e He). lia.
    + intros Hall. rewrite (Hall e He) in Hs. discriminate.
  - split; [|reflexivity]. intros _ e He.
    apply (find_none _ _ E). by apply list_elem_of_In.
Qed.

Lemma space_width_bound (s : list byte) : (space_width s <= length s)%nat.
Proof.
  unfold space_width.
  destruct (find (fun e => starts_with e s) white_space) as [e|] eqn:E; [|lia].
  apply find_some in E as [_ Hs]. apply starts_with_inv in Hs as [r ->].
  rewrite length_app. lia.
Qed.

Lemma TrimLeft_loop_stable (fuel : nat) (s : list byte) :
  (length s <= fuel)%nat -> space_width (TrimLeft_loop fuel s) = 0%nat.
Proof.
  revert s. induction fuel as [|fuel IH]; intros s Hlen; simpl.
  - destruct s; [reflexivity | simpl in Hlen; lia].
  - destruct (space_width s) as [|k] eqn:E; [exact E|].
    apply IH. pose proof (space_width_bound s). rewrite length_drop. lia.
Qed.

Lemma TrimRight_loop_stable (fuel : nat) (s : list byte) :
  (length s <= fuel)%nat -> space_width_last (TrimRight_loop fuel s) = 0%nat.
Proof.
  revert s. induction fuel as [|fuel IH]; intros s Hlen; simpl.
  - destruct s; [reflexivity | simpl in Hlen; lia].
  - destruct (space_width_last s) as [|k] eqn:E; [exact E|].
    apply IH. rewrite length_take. lia.
Qed.

Lemma TrimRight_loop_take (fuel : nat) (s : list byte) :
  exists k, TrimRight_loop fuel s = take k s.
Proof.
  revert s. induction fuel as [|fuel IH]; intros s; simpl.
  - exists (length s). by rewrite firstn_all.
  - destruct (space_width_last s) as [|w]; [exists (length s); by rewrite firstn_all|].
    destruct (IH (take (length s - S w) s)) as [k ->].
    exists (k `min` (length s - S w))%nat. by rewrite take_take.
Qed.

Lemma starts_with_take (p s : list byte) (k : nat) :
  starts_with p (take k s) = true -> starts_with p s = true.
Proof.
  intros Hp. apply starts_with_inv in Hp as [r Hr].
  rewrite <- (take_drop k s), Hr, <- app_assoc. apply starts_with_app.
Qed.

Lemma space_width_take (s : list byte) (k : nat) :
  space_width s = 0%nat -> space_width (take k s) = 0%nat.
Proof.
  rewrite !space_width_zero. intros Hs e He.
  destruct (starts_with e (take k s)) eqn:E; [|reflexivity].
  apply starts_with_take in E. by rewrite (Hs e He) in E.
Qed.

Lemma TrimLeft_id (s : list byte) : space_width s = 0%nat -> TrimLeft s = s.
Proof. intros Hs. unfold TrimLeft. destruct (length s); simpl; by rewrite ?Hs. Qed.

Lemma TrimRight_id (s : list byte) : space_width_last s = 0%nat -> TrimRight s = s.
Proof. intros Hs. unfold TrimRight. destruct (length s); simpl; by rewrite ?Hs. Qed.

Lemma TrimSpace_idempotent (s : string) : TrimSpace (TrimSpace s) = TrimSpace s.
Proof.
  unfold TrimSpace. rewrite list_byte_of_string_of_list_byte. f_equal.
  set (t := TrimLeft (list_byte_of_string s)).
  assert (space_width t = 0%nat) as Ht by (by apply TrimLeft_loop_stable).
  assert (space_width (TrimRight t) = 0%nat) as Hl.
  { unfold TrimRight. destruct (TrimRight_loop_take (length t) t) as [k ->].
    by apply space_width_take. }
  rewrite (TrimLeft_id _ Hl). apply TrimRight_id.
  by apply TrimRight_loop_stable.
Qed.

Lemma len_zero (s : string) : (len s =? 0) = true <-> s = "".
Proof.
  unfold len. rewrite Z.eqb_eq. destruct s; simpl; split; try done; lia.
Qed.

(** ** The scanner and the lines of a text *)

Lemma lines_app_first (l r : list byte) :
  x0a ∉ l -> l <> [] -> exists x xs, lines (l ++ r) = (l ++ x) :: xs.
Proof.
  induction l as [|a l IH]; [done|]. intros Hnl _.
  apply not_elem_of_cons in Hnl as [Ha Hl]. simpl.
  rewrite decide_False by done.
  destruct l as [|a' l].
  - simpl. destruct (lines r) as [|x xs]; [by exists [], [] | by exists x, xs].
  - destruct (IH Hl) as (x & xs & ->); [done|]. by exists x, xs.
Qed.

Lemma lines_app_newline (l r : list byte) :
  x0a ∉ l -> lines (l ++ x0a :: r) = l :: lines r.
Proof.
  induction l as [|a l IH]; intros Hnl; simpl.
  - reflexivity.
  - apply not_elem_of_cons in Hnl as [Ha Hl].
    rewrite decide_False by done. by rewrite (IH Hl).
Qed.

Lemma lines_no_newline (l : list byte) :
  x0a ∉ l -> l <> [] -> lines l = [l].
Proof.
  induction l as [|a l IH]; [done|]. intros Hnl _.
  apply not_elem_of_cons in Hnl as [Ha Hl]. simpl.
  rewrite decide_False by done.
  destruct l as [|a' l]; [reflexivity|]. by rewrite (IH Hl).
Qed.

Lemma dropCR_rev_dropCR (tok : list byte) : dropCR_rev tok = dropCR (reverse tok).
Proof.
  unfold dropCR_rev, dropCR. rewrite reverse_involutive.
  destruct tok as [|b tok]; [reflexivity|]. by destruct b.
Qed.

Lemma fits_reverse (tok : list byte) :
  blen tok < MaxScanTokenSize -> fits (reverse tok) = true.
Proof.
  intros Hroom. unfold fits, blen. rewrite length_reverse. by apply Z.ltb_lt.
Qed.

Lemma Scanner_loop_scanned (r tok : list byte) :
  x0a ∉ tok ->
  blen tok < MaxScanTokenSize ->
  Scanner_loop r tok (blen tok) = scanned (lines (reverse tok ++ r)).
Proof.
  revert tok. induction r as [|b r IH]; intros tok Hnl Hroom.
  - cbn [Scanner_loop]. rewrite app_nil_r. destruct tok as [|a tok]; [reflexivity|].
    assert ((blen (a :: tok) =? 0) = false) as -> by (unfold blen; simpl; lia).
    rewrite lines_no_newline.
    + cbn [scanned]. rewrite (fits_reverse _ Hroom).
      by rewrite dropCR_rev_dropCR.
    + intros Hin. apply Hnl. by apply elem_of_reverse.
    + intros E. apply (f_equal length) in E. rewrite length_reverse in E. done.
  - cbn [Scanner_loop]. destruct (decide (b = x0a)) as [->|Hb].
    + rewrite lines_app_newline by (intros Hin; apply Hnl; by apply elem_of_reverse).
      cbn [scanned]. rewrite (fits_reverse _ Hroom).
      pose proof (IH [] ltac:(apply not_elem_of_nil) ltac:(done)) as IH0.
      change (blen []) with 0 in IH0. change (reverse [] ++ r) with r in IH0.
      rewrite IH0. destruct (scanned (lines r)) as [toks err].
      by rewrite dropCR_rev_dropCR.
    + assert (reverse tok ++ b :: r = reverse (b :: tok) ++ r) as ->.
      { by rewrite reverse_cons, <- app_assoc. }
      assert (x0a ∉ b :: tok) as Hnl' by (apply not_elem_of_cons; split; done).
      destruct (MaxScanTokenSize <=? blen tok + 1) eqn:Efull.
      * destruct (lines_app_first (reverse (b :: tok)) r) as (x & xs & ->).
        { intros Hin. apply Hnl'. by apply elem_of_reverse. }
        { intros E. apply (f_equal length) in E. rewrite length_reverse in E. done. }
        cbn [scanned]. unfold fits.
        assert ((blen (reverse (b :: tok) ++ x) <? MaxScanTokenSize) = false) as ->;
          [|reflexivity].
        apply Z.ltb_ge. apply Z.leb_le in Efull. unfold blen in *.
        rewrite length_app, length_reverse. simpl length. lia.
      * replace (blen tok + 1) with (blen (b :: tok)) by (unfold blen; simpl; lia).
        apply IH; [exact Hnl'|]. apply Z.leb_gt in Efull. unfold blen in *.
        simpl length. lia.
Qed.

Lemma NewScanner_scanned (r : list byte) : NewScanner r = scanned (lines r).
Proof.
  unfold NewScanner.
  apply (Scanner_loop_scanned r []); [apply not_elem_of_nil | done].
Qed.

(** ** [ParseTextMacFile] and the description of the text format *)

Lemma Load_trimmed (m : Matcher) (s : string) :
  TrimSpace s <> "" ->
  Load m (TrimSpace s) = Matcher_Add m (TrimSpace s) tt.
Proof.
  intros Hne. unfold Load. rewrite TrimSpace_idempotent.
  destruct (len (TrimSpace s) =? 0) eqn:E; [|reflexivity].
  by apply len_zero in E.
Qed.

Lemma HasPrefix_hash (c : ascii) (s : string) :
  HasPrefix (String c s) "#" = Ascii.eqb c "#".
Proof.
  change (HasPrefix (String c s) "#") with (Ascii.eqb "#" c && HasPrefix s "").
  assert (HasPrefix s "" = true) as -> by (by destruct s).
  by rewrite andb_true_r, Ascii.eqb_sym.
Qed.

(** One round of the loop of [LoadFromTextReader], by the kind of the
    line. *)
Lemma LoadFromTextReader_loop_step
    (m : Matcher) (l : list byte) (toks : list (list byte))
    (scanErr : option error) (n : Z) :
  match classify l with
  | Blank | Comment =>
      LoadFromTextReader_loop m (dropCR l :: toks) scanErr n
      = LoadFromTextReader_loop m toks scanErr (n + 1)
  | Address hw =>
      LoadFromTextReader_loop m (dropCR l :: toks) scanErr n
      = LoadFromTextReader_loop (mkMatcher (<[hw := tt]> (macs m))) toks scanErr (n + 1)
  | Malformed =>
      exists err,
        LoadFromTextReader_loop m (dropCR l :: toks) scanErr n
        = (m, Some (Errorf "line %d: %w" [OpD (n + 1); OpW err]))
  end.
Proof.
  cbn [LoadFromTextReader_loop]. unfold classify.
  destruct (TrimSpace (string_of_list_byte (dropCR l))) as [|c t] eqn:Et.
  - reflexivity.
  - assert ((len (String c t) =? 0) = false) as ->.
    { destruct (len (String c t) =? 0) eqn:E; [|reflexivity].
      by apply len_zero in E. }
    rewrite HasPrefix_hash. cbn [orb].
    destruct (Ascii.eqb c "#"); [reflexivity|].
    rewrite <- Et, Load_trimmed by (by rewrite Et).
    rewrite Et. unfold Matcher_Add.
    destruct (ParseMAC (String c t)) as [hw [err|]]; [eauto|].
    destruct (decide (length hw = 6%nat)) as [Hlen|Hlen].
    + apply blen_six in Hlen as Hb. rewrite Hb. cbn [negb].
      unfold Matcher_add. apply blen_six in Hb. by rewrite (copy6_six _ Hb).
    + destruct (blen hw =? 6) eqn:Hb; [by apply blen_six in Hb|].
      cbn [negb]. eauto.
Qed.

Lemma LoadFromTextReader_loop_spec (ls : list (list byte)) (m : Matcher) (n : Z) :
  let '(toks, scanErr) := scanned ls in
  if fit_to_first_malformed ls then
    match spec_parse ls (n + 1) (macs m) with
    | inl k =>
        exists m' err,
          LoadFromTextReader_loop m toks scanErr n
          = (m', Some (Errorf "line %d: %w" [OpD k; OpW err]))
    | inr set =>
        LoadFromTextReader_loop m toks scanErr n = (mkMatcher set, None)
    end
  else
    exists m', LoadFromTextReader_loop m toks scanErr n = (m', Some ErrTooLong).
Proof.
  revert m n. induction ls as [|l ls IH]; intros m n.
  - simpl. by destruct m.
  - cbn [scanned fit_to_first_malformed spec_parse].
    destruct (fits l); cbn [andb]; [|by exists m].
    destruct (scanned ls) as [toks scanErr].
    pose proof (LoadFromTextReader_loop_step m l toks scanErr n) as Hstep.
    destruct (classify l) as [| |hw|].
    + rewrite Hstep. apply IH.
    + rewrite Hstep. apply IH.
    + rewrite Hstep.
      specialize (IH (mkMatcher (<[hw := tt]> (macs m))) (n + 1)).
      cbn [macs] in IH. exact IH.
    + destruct Hstep as [err ->]. eauto.
Qed.

(** C3.  For a text in which every line up to and including the first
    malformed one (every line, when none is malformed) is shorter than the
    scanner's buffer of 64 KiB, [ParseTextMacFile] agrees with the
    description of the format: blank lines and lines that start with [#]
    after trimming are passed over, every other line is parsed, trimmed,
    as an EUI-48 address, and the first malformed line makes it fail with
    an error that carries the number of that line, counted from 1 over all
    lines.  For every other text the result is the scanner's error
    [ErrTooLong], which carries no line number.  The two texts of the
    scenario give a set of length 1 and a failure at line 1. *)
Theorem ParseTextMacFile_agrees_with_format :
  (forall in_ : list byte,
      fit_to_first_malformed (lines in_) = true ->
      agrees (ParseTextMacFile in_) (spec_ParseTextMacFile in_))
  /\ (forall in_ : list byte,
      fit_to_first_malformed (lines in_) = false ->
      ParseTextMacFile in_ = (None, Some ErrTooLong))
  /\ (exists m,
         ParseTextMacFile (list_byte_of_string "# comment

00:11:22:33:44:55
") = (Some m, None) /\ Matcher_Len m = 1)
  /\ (exists err,
         ParseTextMacFile (list_byte_of_string "00:11:22:33:44
") = (None, Some (Errorf "line %d: %w" [OpD 1; OpW err]))).
Proof.
  assert (forall in_,
             let '(toks, scanErr) := scanned (lines in_) in
             ParseTextMacFile in_
             = match LoadFromTextReader_loop NewMatcher toks scanErr 0 with
               | (_, Some err) => (None, Some err)
               | (m, None) => (Some m, None)
               end) as Hunfold.
  { intros in_. unfold ParseTextMacFile, LoadFromTextReader.
    rewrite NewScanner_scanned. by destruct (scanned (lines in_)). }
  split; [|split; [|split]].
  - intros in_ Hfit. unfold spec_ParseTextMacFile.
    pose proof (LoadFromTextReader_loop_spec (lines in_) NewMatcher 0) as Hloop.
    specialize (Hunfold in_). destruct (scanned (lines in_)) as [toks scanErr].
    rewrite Hfit in Hloop. change (0 + 1) with 1 in Hloop.
    change (macs NewMatcher) with (∅ : gmap (list byte) unit) in Hloop.
    rewrite Hunfold.
    destruct (spec_parse (lines in_) 1 ∅) as [k|set]; simpl.
    + destruct Hloop as (m' & err & ->). eauto.
    + by rewrite Hloop.
  - intros in_ Hfit.
    pose proof (LoadFromTextReader_loop_spec (lines in_) NewMatcher 0) as Hloop.
    specialize (Hunfold in_). destruct (scanned (lines in_)) as [toks scanErr].
    rewrite Hfit in Hloop. destruct Hloop as [m' Hloop].
    by rewrite Hunfold, Hloop.
  - eexists. split; [vm_compute; reflexivity|]. vm_compute. reflexivity.
  - eexists. vm_compute. reflexivity.
Qed.

Lemma ParseTextMacFile_agrees_with_format_witness :
  agrees (ParseTextMacFile (list_byte_of_string "# comment

00:11:22:33:44:55
00:11:22:33:44
"))
         (inl 4)
  /\ ParseTextMacFile (list_byte_of_string "# comment
" ++ replicate (Z.to_nat 65536) x20)
     = (None, Some ErrTooLong).
Proof.
  split.
  - apply (proj1 ParseTextMacFile_agrees_with_format
             (list_byte_of_string "# comment

00:11:22:33:44:55
00:11:22:33:44
")).
    vm_compute. reflexivity.
  - apply (proj1 (proj2 ParseTextMacFile_agrees_with_format)).
    vm_compute. reflexivity.
Defined.

(** A line of 64 KiB is malformed, and the first line of its text, but the
    error of [ParseTextMacFile] is the scanner's, with no line number. *)
Lemma ParseTextMacFile_long_line_without_number :
  let in_ := replicate (Z.to_nat 65536) x61 in
  spec_ParseTextMacFile in_ = inl 1
  /\ ParseTextMacFile in_ = (None, Some ErrTooLong)
  /\ ~ agrees (ParseTextMacFile in_) (spec_ParseTextMacFile in_).
Proof.
  intros in_.
  assert (spec_ParseTextMacFile in_ = inl 1) as Hs by (vm_compute; reflexivity).
  assert (ParseTextMacFile in_ = (None, Some ErrTooLong)) as Hp
    by (vm_compute; reflexivity).
  split; [exact Hs|]. split; [exact Hp|].
  rewrite Hs, Hp. intros [err Herr]. discriminate.
Qed.

(** ** A failed construction *)

(** C1.  With the descriptors ["provider:a"; "provider:missing"] and a
    data manager that knows ["a"] but not ["missing"],
    [BatchLoadMacProvider] returns no group and the error of the missing
    provider, and the cell it registered with ["a"] on the way is still a
    listener of ["a"] afterwards; likewise when the second provider exists
    and its initial load fails.  No listener was registered before. *)
Theorem BatchLoadMacProvider_failure_keeps_listener :
  listeners two_providers "a" = ∅
  /\ fst (BatchLoadMacProvider ["provider:a"; "provider:missing"] two_providers)
     = (None, Some (Errorf "cannot find provider %s" [OpS "missing"]))
  /\ listeners
       (snd (BatchLoadMacProvider ["provider:a"; "provider:missing"] two_providers))
       "a" = {[0%nat]}
  /\ fst (fst (BatchLoadMacProvider ["provider:a"; "provider:bad"] two_providers))
     = None
  /\ snd (fst (BatchLoadMacProvider ["provider:a"; "provider:bad"] two_providers))
     <> None
  /\ listeners
       (snd (BatchLoadMacProvider ["provider:a"; "provider:bad"] two_providers))
       "a" = {[0%nat]}.
Proof.
  repeat split; try (vm_compute; reflexivity).
  vm_compute. discriminate.
Qed.

(** ** Instances of the properties of the cell *)

Lemma DynamicMatcher_Update_failure_keeps_snapshot_witness :
  let snap := Matcher_add NewMatcher [x00; x11; x22; x33; x44; x55] in
  let d := mkDynamicMatcher parseFunc (Some snap) in
  let b := list_byte_of_string "00:11:22:33:44" in
  snd (DynamicMatcher_Update d b)
  = Some (Errorf "line %d: %w"
            [OpD 1;
             OpW (Errorf "invalid MAC address %s: %w"
                    [OpS "00:11:22:33:44";
                     OpW (AddrError "invalid MAC address" "00:11:22:33:44")])])
  /\ fst (DynamicMatcher_Update d b) = d
  /\ forall (w : unit) (mac : HardwareAddr),
      Match (fst (DynamicMatcher_Update d b)) w mac = Match d w mac
      /\ Match (fst (DynamicMatcher_Update d b)) w mac = Match snap w mac
      /\ Len (fst (DynamicMatcher_Update d b)) w = Len d w
      /\ Len (fst (DynamicMatcher_Update d b)) w = Len snap w.
Proof.
  intros snap d b.
  apply (DynamicMatcher_Update_failure_keeps_snapshot (W := unit) d snap b).
  - reflexivity.
  - vm_compute. reflexivity.
Defined.

Lemma DynamicMatcher_never_updated_witness :
  let d := fst (DynamicMatcher_Update (NewDynamicMatcher parseFunc)
                  (list_byte_of_string "00:11:22:33:44")) in
  let mac := [x00; x11; x22; x33; x44; x55] in
  Match d tt mac = false /\ Len d tt = 0 /\ Close d tt = (tt, None).
Proof.
  intros d mac. apply (DynamicMatcher_never_updated (W := unit) d).
  refine (never_updated_failed (NewDynamicMatcher parseFunc)
            (list_byte_of_string "00:11:22:33:44")
            (Errorf "line %d: %w"
               [OpD 1;
                OpW (Errorf "invalid MAC address %s: %w"
                       [OpS "00:11:22:33:44";
                        OpW (AddrError "invalid MAC address" "00:11:22:33:44")])])
            (never_updated_new parseFunc) _).
  vm_compute. reflexivity.
Defined.

(** * Further properties of the package *)

(** ** The static set: insertion, lookup and count *)

Lemma Matcher_Match_lookup (m : Matcher) (x : list byte) :
  Matcher_Match m x = bool_decide (length x = 6%nat /\ is_Some (macs m !! x)).
Proof.
  destruct (Matcher_Match m x) eqn:E; symmetry.
  - apply bool_decide_eq_true. by apply Matcher_Match_spec.
  - apply bool_decide_eq_false. intros H. apply Matcher_Match_spec in H. congruence.
Qed.

(** X1.  After [add(mac)], [Match] is [true] on the key that [add]
    stored, which is [mac] cut to six bytes or filled up to six with zero
    bytes ([mac] itself when it has six), and on what matched before, and
    on nothing else. *)
Theorem Matcher_add_then_Match (m : Matcher) (mac x : HardwareAddr) :
  Matcher_Match (Matcher_add m mac) x
  = bool_decide (x = copy6 mac) || Matcher_Match m x.
Proof.
  rewrite !Matcher_Match_lookup. unfold Matcher_add. cbn [macs].
  destruct (decide (x = copy6 mac)) as [->|Hne].
  - rewrite (bool_decide_eq_true_2 (copy6 mac = copy6 mac)) by reflexivity.
    cbn [orb].
    apply bool_decide_eq_true. split; [apply length_copy6|].
    rewrite lookup_insert_eq. eauto.
  - rewrite (bool_decide_eq_false_2 (x = copy6 mac)) by exact Hne. cbn [orb].
    by rewrite lookup_insert_ne.
Qed.

Lemma Matcher_add_Len (m : Matcher) (mac : HardwareAddr) :
  Matcher_Len (Matcher_add m mac)
  = if Matcher_Match m (copy6 mac) then Matcher_Len m else Matcher_Len m + 1.
Proof.
  rewrite Matcher_Match_lookup. unfold Matcher_Len, Matcher_add. cbn [macs].
  rewrite map_size_insert.
  destruct (macs m !! copy6 mac) as [[]|] eqn:E.
  - rewrite bool_decide_eq_true_2; [reflexivity|].
    split; [apply length_copy6 | eauto].
  - rewrite bool_decide_eq_false_2; [lia|].
    intros [_ [u Hu]]. discriminate.
Qed.

Lemma Matcher_add_member (m : Matcher) (mac : HardwareAddr) :
  is_Some (macs m !! copy6 mac) -> Matcher_add m mac = m.
Proof.
  intros [[] Hk]. unfold Matcher_add. rewrite (insert_id _ _ _ Hk). by destruct m.
Qed.

(** X2.  Adding a literal is idempotent: when [Add(L)] has succeeded, a
    second [Add(L)] succeeds too and leaves the matcher, hence [Len], as
    the first left it; and a successful [Add] raises [Len] by one when
    the address is new and leaves it when the address was a member. *)
Theorem Matcher_Add_idempotent (m m1 : Matcher) (L : string) :
  Matcher_Add m L tt = (m1, None) ->
  Matcher_Add m1 L tt = (m1, None)
  /\ Matcher_Len m1
     = if Matcher_Match m (fst (ParseMAC L)) then Matcher_Len m else Matcher_Len m + 1.
Proof.
  intros HAdd. destruct (Matcher_Add_inv _ _ _ HAdd) as (hw & Hp & Hlen & ->).
  rewrite Hp. cbn [fst]. split.
  - unfold Matcher_Add. rewrite Hp.
    assert ((blen hw =? 6) = true) as -> by (by apply blen_six).
    cbn [negb]. f_equal. apply Matcher_add_member.
    rewrite (copy6_six _ Hlen). cbn [macs]. rewrite lookup_insert_eq. eauto.
  - pose proof (Matcher_add_Len m hw) as HLen.
    unfold Matcher_add in HLen. by rewrite (copy6_six _ Hlen) in HLen.
Qed.

Lemma Matcher_Add_idempotent_witness :
  let m1 := fst (Matcher_Add NewMatcher "aa:bb:cc:dd:ee:ff" tt) in
  Matcher_Add m1 "aa:bb:cc:dd:ee:ff" tt = (m1, None)
  /\ Matcher_Len m1
     = if Matcher_Match NewMatcher (fst (ParseMAC "aa:bb:cc:dd:ee:ff"))
       then Matcher_Len NewMatcher else Matcher_Len NewMatcher + 1.
Proof.
  intros m1. apply (Matcher_Add_idempotent NewMatcher m1 "aa:bb:cc:dd:ee:ff").
  reflexivity.
Defined.

Lemma dom_foldl_Matcher_add (l : list HardwareAddr) (m : Matcher) :
  dom (macs (foldl Matcher_add m l))
  = list_to_set (copy6 <$> l) ∪ dom (macs m).
Proof.
  revert m. induction l as [|mac l IH]; intros m; simpl.
  - by rewrite union_empty_l_L.
  - rewrite IH. unfold Matcher_add. cbn [macs]. rewrite dom_insert_L.
    change (list_fmap HardwareAddr HardwareAddr copy6 l) with (copy6 <$> l).
    rewrite !union_assoc_L. f_equal. apply union_comm_L.
Qed.

(** X3.  [Len] counts distinct addresses: after the addresses of a list
    have been added to a new matcher, [Len] is the number of different
    keys among them, however often each occurs. *)
Theorem Matcher_Len_counts_distinct (l : list HardwareAddr) :
  Matcher_Len (foldl Matcher_add NewMatcher l)
  = Z.of_nat (length (remove_dups (copy6 <$> l))).
Proof.
  unfold Matcher_Len. f_equal.
  rewrite <- (size_dom (D := gset (list byte))), dom_foldl_Matcher_add.
  cbn [NewMatcher macs]. rewrite dom_empty_L, union_empty_r_L.
  rewrite <- (size_list_to_set (C := gset (list byte))) by apply NoDup_remove_dups.
  f_equal. apply set_eq. intros k.
  by rewrite !elem_of_list_to_set, elem_of_remove_dups.
Qed.

(** ** The matcher group: sums and unions *)

Section LocalMatcherGroup_further.
Context {W T : Type} `{LocalMatcher W T}.

Lemma Len_loop_sum (g : list T) (w : W) (s : Z) :
  Len_loop g w s = s + foldr Z.add 0 ((fun m => Len m w) <$> g).
Proof.
  revert s. induction g as [|m g IH]; intros s.
  - cbn [Len_loop fmap list_fmap foldr]. lia.
  - cbn [Len_loop fmap list_fmap foldr]. rewrite IH.
    change (list_fmap T Z (fun m => Len m w) g) with ((fun m => Len m w) <$> g).
    lia.
Qed.

Lemma Match_loop_app (g1 g2 : list T) (w : W) (mac : HardwareAddr) :
  Match_loop (g1 ++ g2) w mac = Match_loop g1 w mac || Match_loop g2 w mac.
Proof.
  induction g1 as [|m g1 IH]; simpl; [reflexivity|].
  destruct (Match m w mac); [reflexivity | exact IH].
Qed.

(** X4.  The group's [Len] is the sum of its members' [Len], each member
    counted in full (an address held by two members counts twice), and
    [Append] raises it by the [Len] of the new member. *)
Theorem LocalMatcherGroup_Len_sum (mg : LocalMatcherGroup W T) (w : W) :
  LocalMatcherGroup_Len mg w = foldr Z.add 0 ((fun m => Len m w) <$> g mg)
  /\ forall nm : T,
      LocalMatcherGroup_Len (Append mg nm) w = LocalMatcherGroup_Len mg w + Len nm w.
Proof.
  unfold LocalMatcherGroup_Len. split.
  - by rewrite Len_loop_sum.
  - intros nm. rewrite !Len_loop_sum. cbn [Append g].
    rewrite fmap_app, foldr_app. cbn [fmap list_fmap foldr].
    generalize ((fun m => Len m w) <$> g mg). intros l.
    generalize (Len nm w). intros z.
    induction l as [|a l IH]; simpl; lia.
Qed.

(** X5.  After [Append(nm)] the group matches what it matched before and
    what [nm] matches; [AppendCloser] changes neither [Match] nor [Len],
    and [Append] registers no closer. *)
Theorem LocalMatcherGroup_Append_Match
    (mg : LocalMatcherGroup W T) (nm : T) (f : W -> W) (w : W) (mac : HardwareAddr) :
  LocalMatcherGroup_Match (Append mg nm) w mac
  = LocalMatcherGroup_Match mg w mac || Match nm w mac
  /\ LocalMatcherGroup_Match (AppendCloser mg f) w mac = LocalMatcherGroup_Match mg w mac
  /\ LocalMatcherGroup_Len (AppendCloser mg f) w = LocalMatcherGroup_Len mg w
  /\ closer (Append mg nm) = closer mg.
Proof.
  unfold LocalMatcherGroup_Match. cbn [Append AppendCloser g]. repeat split.
  rewrite Match_loop_app. simpl. by destruct (Match nm w mac).
Qed.

Lemma Match_loop_fails_closed (g : list T) (w : W) (mac : HardwareAddr) :
  fails_closed W T -> length mac <> 6%nat -> Match_loop g w mac = false.
Proof.
  intros HT Hlen. induction g as [|m g IH]; simpl; [reflexivity|].
  by rewrite (HT m w mac Hlen).
Qed.
End LocalMatcherGroup_further.

(** X6.  Failing closed is inherited: the static set answers [false] on
    every input that is not six bytes long; so does a cell whose values
    do, a group whose members do, and so every group of static sets and
    cells that [BatchLoadMacProvider] builds, in every state of the
    heap. *)
Theorem fails_closed_everywhere :
  (forall W, fails_closed W Matcher)
  /\ (forall W M (I : LocalMatcher W M),
         fails_closed W M -> fails_closed W (DynamicMatcher M))
  /\ (forall W T (I : LocalMatcher W T),
         fails_closed W T -> fails_closed W (LocalMatcherGroup W T))
  /\ fails_closed World member
  /\ fails_closed World (LocalMatcherGroup World member).
Proof.
  assert (forall W, fails_closed W Matcher) as HM.
  { intros W m w mac Hlen. simpl. destruct (Matcher_Match m mac) eqn:E; [|reflexivity].
    apply Matcher_Match_spec in E. tauto. }
  assert (forall W M (I : LocalMatcher W M),
             fails_closed W M -> fails_closed W (DynamicMatcher M)) as HD.
  { intros W M I HMc d w mac Hlen. simpl. unfold DynamicMatcher_Match.
    destruct (m_ d) as [m|]; [by apply HMc | reflexivity]. }
  assert (forall W T (I : LocalMatcher W T),
             fails_closed W T -> fails_closed W (LocalMatcherGroup W T)) as HG.
  { intros W T I HT mg w mac Hlen. simpl. unfold LocalMatcherGroup_Match.
    by apply Match_loop_fails_closed. }
  assert (fails_closed World member) as Hmem.
  { intros [p|p] w mac Hlen; simpl.
    - destruct (matchers w !! p) as [m|]; [|reflexivity]. by apply (HM unit m tt).
    - destruct (cells w !! p) as [d|]; [|reflexivity].
      by apply (HD World Matcher _ (HM World) d w). }
  repeat split; auto.
Qed.

(** ** The reloadable cell: a successful update *)

Section DynamicMatcher_further.
Context {W M : Type} `{LocalMatcher W M}.

Lemma parserFunc_Update (d : DynamicMatcher M) (b : list byte) :
  parserFunc (fst (DynamicMatcher_Update d b)) = parserFunc d.
Proof.
  unfold DynamicMatcher_Update. by destruct (parserFunc d b) as [m [err|]].
Qed.

(** X7.  The last successful [Update] decides the cell: when the parser
    function accepts [b2], the cell after [Update(b2)] is the same
    whatever [Update(b1)] went before, accepted or not, and its [Match]
    and [Len] are those of the value the parser built from [b2]. *)
Theorem DynamicMatcher_Update_last_wins
    (d : DynamicMatcher M) (b1 b2 : list byte) (m : M) :
  parserFunc d b2 = (Some m, None) ->
  fst (DynamicMatcher_Update (fst (DynamicMatcher_Update d b1)) b2)
  = fst (DynamicMatcher_Update d b2)
  /\ snd (DynamicMatcher_Update (fst (DynamicMatcher_Update d b1)) b2) = None
  /\ forall (w : W) (mac : HardwareAddr),
      Match (fst (DynamicMatcher_Update d b2)) w mac = Match m w mac
      /\ Len (fst (DynamicMatcher_Update d b2)) w = Len m w.
Proof.
  intros Hb2.
  assert (forall d', parserFunc d' = parserFunc d ->
                     DynamicMatcher_Update d' b2
                     = (mkDynamicMatcher (parserFunc d) (Some m), None)) as Hup.
  { intros d' Hpf. unfold DynamicMatcher_Update. by rewrite Hpf, Hb2. }
  rewrite (Hup _ (parserFunc_Update d b1)), (Hup d eq_refl). cbn [fst snd].
  repeat split.
Qed.

(** X8.  A parser function that returns neither a value nor an error
    empties the cell: [Update] returns [nil], the value installed before
    is gone, [Match] is [false] and [Len] is [0]. *)
Theorem DynamicMatcher_Update_nil_value
    (d : DynamicMatcher M) (b : list byte) :
  parserFunc d b = (None, None) ->
  snd (DynamicMatcher_Update d b) = None
  /\ m_ (fst (DynamicMatcher_Update d b)) = None
  /\ forall (w : W) (mac : HardwareAddr),
      Match (fst (DynamicMatcher_Update d b)) w mac = false
      /\ Len (fst (DynamicMatcher_Update d b)) w = 0.
Proof.
  intros Hb. unfold DynamicMatcher_Update. rewrite Hb. cbn [fst snd]. repeat split.
Qed.
End DynamicMatcher_further.

Lemma DynamicMatcher_Update_last_wins_witness :
  let d := NewDynamicMatcher parseFunc in
  let b1 := list_byte_of_string "00:11:22:33:44" in
  let b2 := list_byte_of_string "00:11:22:33:44:55" in
  let m := Matcher_add NewMatcher [x00; x11; x22; x33; x44; x55] in
  fst (DynamicMatcher_Update (fst (DynamicMatcher_Update d b1)) b2)
  = fst (DynamicMatcher_Update d b2)
  /\ snd (DynamicMatcher_Update (fst (DynamicMatcher_Update d b1)) b2) = None
  /\ forall (w : unit) (mac : HardwareAddr),
      Match (fst (DynamicMatcher_Update d b2)) w mac = Match m w mac
      /\ Len (fst (DynamicMatcher_Update d b2)) w = Len m w.
Proof.
  intros d b1 b2 m.
  apply (DynamicMatcher_Update_last_wins (W := unit) d b1 b2 m).
  vm_compute. reflexivity.
Defined.

Lemma DynamicMatcher_Update_nil_value_witness :
  let d := mkDynamicMatcher (fun _ : list byte => (@None Matcher, @None error))
             (Some NewMatcher) in
  snd (DynamicMatcher_Update d []) = None
  /\ m_ (fst (DynamicMatcher_Update d [])) = None
  /\ forall (w : unit) (mac : HardwareAddr),
      Match (fst (DynamicMatcher_Update d [])) w mac = false
      /\ Len (fst (DynamicMatcher_Update d [])) w = 0.
Proof.
  intros d. apply (DynamicMatcher_Update_nil_value (W := unit) d []). reflexivity.
Defined.

(** ** Loading: where it stops and what it keeps *)

Section BatchLoad_further.
Context {T : Type} `{LocalWriteableMatcher T}.




End BatchLoad_further.


Lemma retains_refl (m : Matcher) : retains m m.
Proof. by intros x. Qed.

Lemma retains_trans (m1 m2 m3 : Matcher) :
  retains m1 m2 -> retains m2 m3 -> retains m1 m3.
Proof. intros H12 H23 x Hx. by apply H23, H12. Qed.

Lemma retains_Matcher_add (m : Matcher) (mac : HardwareAddr) :
  retains m (Matcher_add m mac).
Proof.
  intros x Hx. apply Matcher_Match_spec in Hx as [Hlen [u Hu]].
  apply Matcher_Match_spec. split; [exact Hlen|]. unfold Matcher_add. cbn [macs].
  destruct (decide (copy6 mac = x)) as [->|Hne].
  - rewrite lookup_insert_eq. eauto.
  - rewrite lookup_insert_ne by exact Hne. eauto.
Qed.

Lemma retains_Matcher_Add (m : Matcher) (pattern : string) :
  retains m (fst (Matcher_Add m pattern tt)).
Proof.
  unfold Matcher_Add. destruct (ParseMAC pattern) as [hw [err|]]; [apply retains_refl|].
  destruct (negb (blen hw =? 6)); [apply retains_refl | apply retains_Matcher_add].
Qed.

Lemma retains_Load (m : Matcher) (s : string) : retains m (fst (Load m s)).
Proof.
  unfold Load. destruct (len (TrimSpace s) =? 0); [apply retains_refl|].
  apply retains_Matcher_Add.
Qed.

Lemma retains_BatchLoad (m : Matcher) (b : list string) :
  retains m (fst (BatchLoad m b)).
Proof.
  revert m. induction b as [|s b IH]; intros m; simpl; [apply retains_refl|].
  pose proof (retains_Load m s) as Hs.
  destruct (Load m s) as [m' [err|]]; [exact Hs|].
  exact (retains_trans _ _ _ Hs (IH m')).
Qed.

Lemma retains_LoadFromTextReader_loop
    (m : Matcher) (toks : list (list byte)) (scanErr : option error) (n : Z) :
  retains m (fst (LoadFromTextReader_loop m toks scanErr n)).
Proof.
  revert m n. induction toks as [|tok toks IH]; intros m n;
    cbn [LoadFromTextReader_loop]; [apply retains_refl|].
  destruct (_ || _); [apply IH|].
  pose proof (retains_Load m (TrimSpace (string_of_list_byte tok))) as Hs.
  destruct (Load m (TrimSpace (string_of_list_byte tok))) as [m' [err|]]; [exact Hs|].
  exact (retains_trans _ _ _ Hs (IH m' _)).
Qed.

(** X10.  Loading only adds: whatever a matcher matched before [Load],
    [BatchLoad] or [LoadFromTextReader], it matches after, whether the
    call succeeded or returned an error part of the way. *)
Theorem loading_retains_members (m : Matcher) :
  (forall s, retains m (fst (Load m s)))
  /\ (forall b, retains m (fst (BatchLoad m b)))
  /\ (forall r, retains m (fst (LoadFromTextReader m r))).
Proof.
  split; [|split].
  - apply retains_Load.
  - apply retains_BatchLoad.
  - intros r. unfold LoadFromTextReader. destruct (NewScanner r) as [toks scanErr].
    apply retains_LoadFromTextReader_loop.
Qed.

(** ** [ParseTextMacFile]: what the set holds *)

Lemma classify_Address_length (l : list byte) (hw : HardwareAddr) :
  classify l = Address hw -> length hw = 6%nat.
Proof.
  unfold classify. destruct (TrimSpace _) as [|c t]; [discriminate|].
  destruct (Ascii.eqb c "#"); [discriminate|].
  destruct (ParseMAC (String c t)) as [hw' [err|]]; [discriminate|].
  destruct (decide (length hw' = 6%nat)); [|discriminate]. by intros [= <-].
Qed.

Lemma spec_parse_dom (ls : list (list byte)) (n : Z) (set set' : gmap (list byte) unit) :
  spec_parse ls n set = inr set' ->
  dom set' = list_to_set (addresses ls) ∪ dom set.
Proof.
  revert n set. induction ls as [|l ls IH]; intros n set; cbn [spec_parse].
  - intros [= <-]. unfold addresses. simpl. by rewrite union_empty_l_L.
  - unfold addresses. cbn [omap list_omap]. fold (addresses ls).
    destruct (classify l) as [| |hw|]; try discriminate.
    + apply IH.
    + apply IH.
    + intros Hs. rewrite (IH _ _ Hs), dom_insert_L, list_to_set_cons.
      rewrite !union_assoc_L. f_equal. apply union_comm_L.
Qed.

Lemma ParseTextMacFile_ok_inv (in_ : list byte) (m : Matcher) :
  ParseTextMacFile in_ = (Some m, None) ->
  spec_parse (lines in_) 1 ∅ = inr (macs m).
Proof.
  unfold ParseTextMacFile, LoadFromTextReader. rewrite NewScanner_scanned.
  pose proof (LoadFromTextReader_loop_spec (lines in_) NewMatcher 0) as Hloop.
  destruct (scanned (lines in_)) as [toks scanErr].
  change (0 + 1) with 1 in Hloop.
  change (macs NewMatcher) with (∅ : gmap (list byte) unit) in Hloop.
  destruct (fit_to_first_malformed (lines in_)).
  - destruct (spec_parse (lines in_) 1 ∅) as [k|set].
    + destruct Hloop as (m' & err & ->). discriminate.
    + rewrite Hloop. by intros [= <-].
  - destruct Hloop as [m' ->]. discriminate.
Qed.

(** X11.  When [ParseTextMacFile] succeeds, the set it returns matches
    exactly the addresses written on the address lines of the text, in
    whatever order and however often they are written, and its [Len] is
    the number of different addresses among them. *)
Theorem ParseTextMacFile_members (in_ : list byte) (m : Matcher) :
  ParseTextMacFile in_ = (Some m, None) ->
  (forall mac, Matcher_Match m mac = true <-> mac ∈ addresses (lines in_))
  /\ Matcher_Len m = Z.of_nat (length (remove_dups (addresses (lines in_)))).
Proof.
  intros Hok. apply ParseTextMacFile_ok_inv, spec_parse_dom in Hok.
  rewrite dom_empty_L, union_empty_r_L in Hok. split.
  - intros mac. rewrite Matcher_Match_spec, <- elem_of_dom, Hok, elem_of_list_to_set.
    split; [tauto|]. intros Hin. split; [|exact Hin].
    unfold addresses in Hin. apply list_elem_of_omap in Hin as (l & _ & Hl).
    destruct (classify l) as [| |hw|] eqn:E; try discriminate.
    injection Hl as ->. by apply (classify_Address_length l).
  - unfold Matcher_Len. f_equal.
    rewrite <- (size_dom (D := gset (list byte))), Hok.
    rewrite <- (size_list_to_set (C := gset (list byte))) by apply NoDup_remove_dups.
    f_equal. apply set_eq. intros k.
    by rewrite !elem_of_list_to_set, elem_of_remove_dups.
Qed.

Lemma ParseTextMacFile_members_witness :
  let in_ := list_byte_of_string "aa:bb:cc:dd:ee:ff
# the same again
AA-BB-CC-DD-EE-FF
00:11:22:33:44:55" in
  let m := foldl Matcher_add NewMatcher
             [[xaa; xbb; xcc; xdd; xee; xff]; [x00; x11; x22; x33; x44; x55]] in
  (forall mac, Matcher_Match m mac = true <-> mac ∈ addresses (lines in_))
  /\ Matcher_Len m = Z.of_nat (length (remove_dups (addresses (lines in_)))).
Proof.
  intros in_ m. apply (ParseTextMacFile_members in_ m). vm_compute. reflexivity.
Defined.

(** ** Building a group: literals *)

Lemma Load_at_lookup (p : loc) (s : string) (w : World) (m0 : Matcher) :
  matchers w !! p = Some m0 ->
  Load_at p s w
  = (snd (Load m0 s),
     mkWorld (<[p := fst (Load m0 s)]> (matchers w)) (cells w) (providers w)).
Proof. intros Hp. unfold Load_at. rewrite Hp. by destruct (Load m0 s). Qed.

Lemma BatchLoadMacProvider_loop_literals
    (e : list string) (p : loc) (mg : LocalMatcherGroup World member)
    (w : World) (m0 : Matcher) :
  Forall (fun s => is_provider s = false) e ->
  matchers w !! p = Some m0 ->
  BatchLoadMacProvider_loop e p mg w
  = (match snd (BatchLoad m0 e) with
     | None => (Some mg, None)
     | Some err => (None, Some err)
     end,
     mkWorld (<[p := fst (BatchLoad m0 e)]> (matchers w)) (cells w) (providers w)).
Proof.
  intros He. revert w m0. induction He as [|s e Hs _ IH]; intros w m0 Hp.
  - simpl. rewrite (list_insert_id _ _ _ Hp). by destruct w.
  - cbn [BatchLoadMacProvider_loop BatchLoad]. unfold is_provider in Hs. rewrite Hs.
    rewrite (Load_at_lookup _ _ _ _ Hp).
    destruct (Load m0 s) as [m1 [err|]]; cbn [fst snd]; [reflexivity|].
    rewrite (IH _ m1); cbn [matchers cells providers].
    + by rewrite list_insert_insert_eq.
    + apply list_lookup_insert_eq. by apply lookup_lt_Some in Hp.
Qed.

(** X12.  On descriptors that are all literals, [BatchLoadMacProvider]
    is [BatchLoad] into a new static set: it fails with [BatchLoad]'s
    error, or returns a group of that one set with no closer; the set is
    a new object of the heap, no cell is made and no provider is touched;
    and the group matches and counts as the set does, although the set
    was appended to the group before it was filled. *)
Theorem BatchLoadMacProvider_literals (e : list string) (w : World) :
  Forall (fun s => is_provider s = false) e ->
  let p := length (matchers w) in
  let m := fst (BatchLoad NewMatcher e) in
  let mg := mkLocalMatcherGroup [PtrMatcher p] [] in
  let w' := mkWorld (matchers w ++ [m]) (cells w) (providers w) in
  BatchLoadMacProvider e w
  = (match snd (BatchLoad NewMatcher e) with
     | None => (Some mg, None)
     | Some err => (None, Some err)
     end, w')
  /\ forall mac,
      LocalMatcherGroup_Match mg w' mac = Matcher_Match m mac
      /\ LocalMatcherGroup_Len mg w' = Matcher_Len m.
Proof.
  intros He p m mg w'. split.
  - unfold BatchLoadMacProvider, new_Matcher.
    rewrite (BatchLoadMacProvider_loop_literals e p _ _ NewMatcher He);
      cbn [matchers cells providers].
    + f_equal. f_equal. subst p.
      rewrite insert_app_r_alt by lia. by rewrite Nat.sub_diag.
    + subst p. rewrite lookup_app_r by lia. by rewrite Nat.sub_diag.
  - intros mac. unfold LocalMatcherGroup_Match, LocalMatcherGroup_Len.
    subst mg w' p.
    cbn [g Match_loop Len_loop Match Len member_LocalMatcher matchers].
    rewrite lookup_app_r by lia. rewrite Nat.sub_diag. cbn [lookup list_lookup].
    split; [by destruct (Matcher_Match m mac) | reflexivity].
Qed.

Lemma BatchLoadMacProvider_literals_witness :
  let e := ["aa:bb:cc:dd:ee:ff"; " "; "00-11-22-33-44-55"] in
  let w := two_providers in
  let p := length (matchers w) in
  let m := fst (BatchLoad NewMatcher e) in
  let mg := mkLocalMatcherGroup [PtrMatcher p] [] in
  let w' := mkWorld (matchers w ++ [m]) (cells w) (providers w) in
  BatchLoadMacProvider e w
  = (match snd (BatchLoad NewMatcher e) with
     | None => (Some mg, None)
     | Some err => (None, Some err)
     end, w')
  /\ forall mac,
      LocalMatcherGroup_Match mg w' mac = Matcher_Match m mac
      /\ LocalMatcherGroup_Len mg w' = Matcher_Len m.
Proof.
  intros e w. apply (BatchLoadMacProvider_literals e w).
  repeat constructor.
Defined.

(** ** Building a group: providers, and closing it *)

Lemma listeners_DeleteListener (tag : string) (l : loc) (w : World) (tag' : string) :
  listeners (DeleteListener tag l w) tag'
  = if decide (tag = tag') then listeners w tag' ∖ {[l]} else listeners w tag'.
Proof.
  unfold DeleteListener, listeners.
  destruct (providers w !! tag) as [pr|] eqn:E.
  - cbn [providers]. destruct (decide (tag = tag')) as [<-|Hne].
    + by rewrite lookup_insert_eq, E.
    + by rewrite lookup_insert_ne.
  - destruct (decide (tag = tag')) as [<-|]; [|reflexivity].
    rewrite E. simpl. set_solver.
Qed.

Lemma Load_at_frame (p : loc) (s : string) (w : World) :
  cells (snd (Load_at p s w)) = cells w
  /\ providers (snd (Load_at p s w)) = providers w.
Proof.
  unfold Load_at. destruct (matchers w !! p) as [m|]; [|done].
  by destruct (Load m s).
Qed.

Lemma LoadAndAddListener_ok (tag : string) (l : loc) (w w' : World) (d : DynamicMatcher Matcher) :
  is_Some (providers w !! tag) ->
  cells w !! l = Some d ->
  LoadAndAddListener tag l w = (None, w') ->
  matchers w' = matchers w
  /\ (exists data v,
         dp_data <$> providers w !! tag = Some data
         /\ parserFunc d data = (v, None)
         /\ cells w' = <[l := mkDynamicMatcher (parserFunc d) v]> (cells w))
  /\ (forall tag', dp_data <$> providers w' !! tag' = dp_data <$> providers w !! tag')
  /\ forall tag', listeners w' tag'
                  = if decide (tag = tag') then {[l]} ∪ listeners w tag'
                    else listeners w tag'.
Proof.
  intros [pr Hpr] Hd. unfold LoadAndAddListener. rewrite Hpr, Hd.
  unfold DynamicMatcher_Update.
  destruct (parserFunc d (dp_data pr)) as [v [err|]] eqn:Hv; [discriminate|].
  intros [= <-]. cbn [cells matchers providers].
  split; [reflexivity|]. split; [|split].
  - by exists (dp_data pr), v.
  - intros tag'. destruct (decide (tag = tag')) as [<-|Hne].
    + by rewrite lookup_insert_eq, Hpr.
    + by rewrite lookup_insert_ne.
  - intros tag'. unfold listeners. cbn [providers].
    destruct (decide (tag = tag')) as [<-|Hne].
    + by rewrite lookup_insert_eq, Hpr.
    + by rewrite lookup_insert_ne.
Qed.

Lemma parseFunc_ok (data : list byte) (v : option Matcher) :
  parseFunc data = (v, None) -> exists m, v = Some m /\ ParseTextMacFile data = (Some m, None).
Proof.
  unfold parseFunc, ParseTextMacFile.
  destruct (LoadFromTextReader NewMatcher data) as [m [err|]]; [discriminate|].
  intros [= <-]. by exists m.
Qed.

Lemma cells_of_cons (tag : string) (r : string * loc) (regs : list (string * loc)) :
  cells_of tag (r :: regs)
  = if decide (r.1 = tag) then {[r.2]} ∪ cells_of tag regs else cells_of tag regs.
Proof.
  unfold cells_of. rewrite filter_cons.
  destruct (decide (r.1 = tag)); reflexivity.
Qed.

Lemma BatchLoadMacProvider_loop_ok
    (e : list string) (staticMatcher : loc)
    (mg mg' : LocalMatcherGroup World member) (w w' : World) :
  BatchLoadMacProvider_loop e staticMatcher mg w = ((Some mg', None), w') ->
  exists regs, loop_done e staticMatcher mg mg' w w' regs.
Proof.
  revert mg w. induction e as [|s e IH]; intros mg w.
  - cbn [BatchLoadMacProvider_loop]. intros [= <- <-]. exists [].
    split; cbn [fmap list_fmap]; rewrite ?app_nil_r; try done.
    + intros tag. unfold cells_of. simpl. by rewrite union_empty_l_L.
    + constructor.
    + intros m0 Hm0. by exists m0.
  - cbn [BatchLoadMacProvider_loop].
    change (HasPrefix s "provider:") with (is_provider s).
    destruct (is_provider s) eqn:Es.
    + set (tag := TrimPrefix s "provider:").
      unfold GetDataProvider.
      destruct (providers w !! tag) as [pr|] eqn:Hpr; [|discriminate].
      unfold new_DynamicMatcher.
      set (l := length (cells w)).
      set (w1 := mkWorld (matchers w) (cells w ++ [NewDynamicMatcher parseFunc])
                   (providers w)).
      assert (cells w1 !! l = Some (NewDynamicMatcher parseFunc)) as Hl.
      { subst w1 l. cbn [cells]. rewrite lookup_app_r by lia.
        by rewrite Nat.sub_diag. }
      destruct (LoadAndAddListener tag l w1) as [[err|] w2] eqn:HL; [discriminate|].
      assert (is_Some (providers w1 !! tag)) as Hsome by (by eexists).
      apply (LoadAndAddListener_ok _ _ _ _ _ Hsome Hl) in HL
        as (Hmat & (data & v & Hdata & Hv & Hcells) & Hdat & Hlis).
      apply parseFunc_ok in Hv as Hm. destruct Hm as (m & -> & Hm).
      cbn [NewDynamicMatcher parserFunc] in Hcells.
      assert (length (cells w1) = S l) as Hlen1.
      { subst w1 l. cbn [cells]. rewrite length_app. simpl. lia. }
      assert (length (cells w2) = S l) as Hlen.
      { by rewrite Hcells, length_insert. }
      intros Hloop. destruct (IH _ _ Hloop) as [regs Hd]. destruct Hd.
      exists ((tag, l) :: regs).
      cbn [Append AppendCloser closer g] in *.
      split; cbn [fmap list_fmap fst snd].
      * rewrite filter_cons, decide_True by exact Es.
        cbn [fmap list_fmap]. f_equal. exact done_tags0.
      * rewrite done_closer0, <- app_assoc. reflexivity.
      * rewrite done_g0, <- app_assoc. reflexivity.
      * intros tag'. rewrite done_listeners0, Hlis, cells_of_cons. cbn [fst snd].
        assert (listeners w1 tag' = listeners w tag') as -> by reflexivity.
        destruct (decide (tag = tag')); [|reflexivity].
        rewrite !union_assoc_L. f_equal. apply union_comm_L.
      * constructor; [subst l; lia|].
        eapply Forall_impl; [exact done_fresh0|]. intros x Hx. cbn beta in Hx. lia.
      * constructor; [|exact done_NoDup0].
        intros Hin. rewrite Forall_forall in done_fresh0.
        specialize (done_fresh0 l Hin). lia.
      * intros i Hi. fold l in Hi. rewrite done_cells_frame0 by lia.
        rewrite Hcells, list_lookup_insert_ne by lia.
        subst w1. cbn [cells]. by rewrite lookup_app_l.
      * intros tag'. by rewrite done_data0, Hdat.
      * constructor.
        -- cbn [fst snd]. exists data, m. split; [exact Hdata|]. split; [exact Hm|].
           rewrite done_cells_frame0 by lia. rewrite Hcells.
           apply list_lookup_insert_eq. lia.
        -- eapply Forall_impl; [exact done_cells0|].
           intros r (dat & m' & Hr1 & Hr2 & Hr3).
           exists dat, m'. rewrite Hdat in Hr1. done.
      * intros m0 Hm0. rewrite filter_cons, decide_False by (rewrite Es; discriminate).
        apply done_static0. by rewrite Hmat.
    + destruct (matchers w !! staticMatcher) as [m0|] eqn:Hsm.
      * rewrite (Load_at_lookup _ _ _ _ Hsm).
        destruct (Load m0 s) as [m1 [err|]] eqn:HLoad; cbn [fst snd]; [discriminate|].
        set (w1 := mkWorld _ _ _).
        intros Hloop. destruct (IH _ _ Hloop) as [regs Hd]. destruct Hd.
        exists regs. split; try done.
        -- rewrite filter_cons, decide_False by (rewrite Es; discriminate). done.
        -- intros m0' Hm0'. rewrite Hsm in Hm0'. injection Hm0' as <-.
           rewrite filter_cons, decide_True by exact Es.
           cbn [BatchLoad]. rewrite HLoad.
           apply done_static0. subst w1. cbn [matchers].
           apply list_lookup_insert_eq. by apply lookup_lt_Some in Hsm.
      * unfold Load_at. rewrite Hsm.
        intros Hloop. destruct (IH _ _ Hloop) as [regs Hd]. destruct Hd.
        exists regs. split; try done.
        -- rewrite filter_cons, decide_False by (rewrite Es; discriminate). done.
        -- intros m0' Hm0'. rewrite Hsm in Hm0'. discriminate.
Qed.

Lemma Close_loop_deregister (regs : list (string * loc)) (w : World) (tag : string) :
  listeners (Close_loop (deregister <$> regs) w) tag
  = listeners w tag ∖ cells_of tag regs.
Proof.
  revert w. induction regs as [|r regs IH]; intros w.
  - unfold cells_of. simpl. by rewrite difference_empty_L.
  - cbn [fmap list_fmap Close_loop].
    change (list_fmap _ _ deregister regs) with (deregister <$> regs).
    rewrite IH. unfold deregister at 1. rewrite listeners_DeleteListener, cells_of_cons.
    destruct (decide (r.1 = tag)); [|reflexivity]. set_solver.
Qed.

Lemma BatchLoadMacProvider_ok_inv
    (e : list string) (w w' : World) (mg : LocalMatcherGroup World member) :
  BatchLoadMacProvider e w = ((Some mg, None), w') ->
  exists regs,
    loop_done e (length (matchers w))
      (mkLocalMatcherGroup [PtrMatcher (length (matchers w))] []) mg
      (mkWorld (matchers w ++ [NewMatcher]) (cells w) (providers w)) w' regs.
Proof. unfold BatchLoadMacProvider, new_Matcher. apply BatchLoadMacProvider_loop_ok. Qed.

Lemma elem_of_cells_of (tag : string) (l : loc) (regs : list (string * loc)) :
  l ∈ cells_of tag regs <-> (tag, l) ∈ regs.
Proof.
  unfold cells_of. rewrite elem_of_list_to_set, list_elem_of_fmap. split.
  - intros ([t l'] & -> & Hin). apply list_elem_of_filter in Hin as [Ht Hin].
    cbn [fst snd] in *. by subst t.
  - intros Hin. exists (tag, l). split; [reflexivity|].
    apply list_elem_of_filter. by split.
Qed.

Lemma result_ok_eq (r : result * World) :
  match fst (fst r) with Some _ => true | None => false end = true ->
  snd (fst r) = None ->
  r = ((Some (default (mkLocalMatcherGroup [] []) (fst (fst r))), None), snd r).
Proof.
  destruct r as [[[mg|] err] w]; cbn [fst snd default]; [|discriminate].
  by intros _ ->.
Qed.

(** X13.  [Close] undoes the registrations: when [BatchLoadMacProvider]
    has returned a group, in a state where every listener is a cell of the
    heap, [Close] on that group returns [nil] and leaves every provider
    with exactly the listeners it had before the group was built. *)
Theorem BatchLoadMacProvider_Close_detaches
    (e : list string) (w w' : World) (mg : LocalMatcherGroup World member) :
  listeners_allocated w ->
  BatchLoadMacProvider e w = ((Some mg, None), w') ->
  snd (LocalMatcherGroup_Close mg w') = None
  /\ forall tag, listeners (fst (LocalMatcherGroup_Close mg w')) tag = listeners w tag.
Proof.
  intros Hw Hok. split; [reflexivity|]. intros tag.
  destruct (BatchLoadMacProvider_ok_inv _ _ _ _ Hok) as [regs Hd]. destruct Hd.
  unfold LocalMatcherGroup_Close. cbn [fst closer app] in *.
  rewrite done_closer0, Close_loop_deregister, done_listeners0.
  assert (listeners (mkWorld (matchers w ++ [NewMatcher]) (cells w) (providers w)) tag
          = listeners w tag) as -> by reflexivity.
  apply set_eq. intros l. rewrite elem_of_difference, elem_of_union. split.
  - intros [[Hl|Hl] Hn]; [contradiction | exact Hl].
  - intros Hl. split; [by right|]. intros Hreg.
    apply elem_of_cells_of in Hreg.
    assert (l ∈ regs.*2) as Hin by (apply list_elem_of_fmap; by exists (tag, l)).
    rewrite Forall_forall in done_fresh0. specialize (done_fresh0 l Hin).
    cbn [cells] in done_fresh0. specialize (Hw tag l Hl). lia.
Qed.

Lemma BatchLoadMacProvider_Close_detaches_witness :
  let e := ["provider:a"; "aa:bb:cc:dd:ee:ff"; "provider:a"] in
  let r := BatchLoadMacProvider e two_providers in
  let mg := default (mkLocalMatcherGroup [] []) (fst (fst r)) in
  listeners (snd r) "a" = {[0%nat; 1%nat]}
  /\ snd (LocalMatcherGroup_Close mg (snd r)) = None
  /\ forall tag,
      listeners (fst (LocalMatcherGroup_Close mg (snd r))) tag
      = listeners two_providers tag.
Proof.
  intros e r mg. split; [vm_compute; reflexivity|].
  apply (BatchLoadMacProvider_Close_detaches e two_providers (snd r) mg).
  - intros tag l Hl. unfold listeners, two_providers in Hl. cbn [providers] in Hl.
    destruct (decide (tag = "a")) as [->|Ha].
    + rewrite lookup_insert_eq in Hl. by apply elem_of_empty in Hl.
    + rewrite lookup_insert_ne in Hl by done.
      destruct (decide (tag = "bad")) as [->|Hb].
      * rewrite lookup_insert_eq in Hl. by apply elem_of_empty in Hl.
      * rewrite lookup_insert_ne, lookup_empty in Hl by done.
        by apply elem_of_empty in Hl.
  - apply result_ok_eq; vm_compute; reflexivity.
Defined.

(** X14.  The group that [BatchLoadMacProvider] returns holds the static
    set first and then one cell for each provider descriptor, in the
    order of the descriptors; the cells are new and all different, also
    for two descriptors that name the same provider; each is a listener
    of the provider its descriptor names, and the group has one closer
    for each, the one that deregisters it. *)
Theorem BatchLoadMacProvider_one_cell_per_provider
    (e : list string) (w w' : World) (mg : LocalMatcherGroup World member) :
  BatchLoadMacProvider e w = ((Some mg, None), w') ->
  exists regs : list (string * loc),
    regs.*1 = (fun s => TrimPrefix s "provider:")
              <$> filter (fun s => is_provider s = true) e
    /\ g mg = PtrMatcher (length (matchers w)) :: (PtrDynamicMatcher <$> regs.*2)
    /\ closer mg = deregister <$> regs
    /\ NoDup regs.*2
    /\ Forall (fun l => (length (cells w) <= l)%nat) regs.*2
    /\ forall tag, listeners w' tag = cells_of tag regs ∪ listeners w tag.
Proof.
  intros Hok. destruct (BatchLoadMacProvider_ok_inv _ _ _ _ Hok) as [regs Hd].
  destruct Hd. exists regs. cbn [closer g cells app] in *.
  repeat split; done.
Qed.

Lemma BatchLoadMacProvider_one_cell_per_provider_witness :
  let e := ["provider:a"; "aa:bb:cc:dd:ee:ff"; "provider:a"] in
  let r := BatchLoadMacProvider e two_providers in
  let mg := default (mkLocalMatcherGroup [] []) (fst (fst r)) in
  exists regs : list (string * loc),
    regs.*1 = (fun s => TrimPrefix s "provider:")
              <$> filter (fun s => is_provider s = true) e
    /\ g mg = PtrMatcher (length (matchers two_providers))
              :: (PtrDynamicMatcher <$> regs.*2)
    /\ closer mg = deregister <$> regs
    /\ NoDup regs.*2
    /\ Forall (fun l => (length (cells two_providers) <= l)%nat) regs.*2
    /\ forall tag, listeners (snd r) tag = cells_of tag regs ∪ listeners two_providers tag.
Proof.
  intros e r mg.
  apply (BatchLoadMacProvider_one_cell_per_provider e two_providers (snd r) mg).
  apply result_ok_eq; vm_compute; reflexivity.
Defined.

(** X15.  What a built group matches: when [BatchLoadMacProvider] has
    returned a group, its literal descriptors have all loaded into the
    static set, and the group, in the state the construction left,
    matches an address exactly when the static set does or the text that
    some provider descriptor's provider held at construction, parsed by
    [ParseTextMacFile], does. *)
Theorem BatchLoadMacProvider_Match
    (e : list string) (w w' : World) (mg : LocalMatcherGroup World member) :
  BatchLoadMacProvider e w = ((Some mg, None), w') ->
  exists ms,
    BatchLoad NewMatcher (filter (fun s => is_provider s = false) e) = (ms, None)
    /\ forall mac,
        LocalMatcherGroup_Match mg w' mac = true
        <-> Matcher_Match ms mac = true
            \/ exists s data m,
                 s ∈ e /\ is_provider s = true
                 /\ dp_data <$> providers w !! TrimPrefix s "provider:" = Some data
                 /\ ParseTextMacFile data = (Some m, None)
                 /\ Matcher_Match m mac = true.
Proof.
  intros Hok. destruct (BatchLoadMacProvider_ok_inv _ _ _ _ Hok) as [regs Hd].
  destruct Hd. cbn [closer g cells matchers providers app] in *.
  destruct (done_static0 NewMatcher) as (ms & Hms & HBatch).
  { rewrite lookup_app_r by lia. by rewrite Nat.sub_diag. }
  exists ms. split; [exact HBatch|]. intros mac.
  unfold LocalMatcherGroup_Match. rewrite Match_loop_true, done_g0.
  rewrite Forall_forall in done_cells0. split.
  - intros (x & Hx & Hmatch). apply elem_of_cons in Hx as [->|Hx].
    + left. cbn [Match member_LocalMatcher] in Hmatch. by rewrite Hms in Hmatch.
    + right. apply list_elem_of_fmap in Hx as (l & -> & Hl).
      apply list_elem_of_fmap in Hl as ([tag l'] & -> & Hr). cbn [snd] in Hmatch.
      destruct (done_cells0 _ Hr) as (data & m & Hdata & Hm & Hcell).
      cbn [fst snd] in Hdata, Hcell.
      assert (tag ∈ regs.*1) as Htag by (apply list_elem_of_fmap; by exists (tag, l')).
      rewrite done_tags0 in Htag.
      apply list_elem_of_fmap in Htag as (s & -> & Hs).
      apply list_elem_of_filter in Hs as [Hp Hs].
      exists s, data, m. repeat split; try done.
      cbn [Match member_LocalMatcher] in Hmatch. by rewrite Hcell in Hmatch.
  - intros [Hstatic | (s & data & m & Hs & Hp & Hdata & Hm & Hmatch)].
    + exists (PtrMatcher (length (matchers w))). split; [left|].
      cbn [Match member_LocalMatcher]. by rewrite Hms.
    + assert (TrimPrefix s "provider:" ∈ regs.*1) as Htag.
      { rewrite done_tags0. apply list_elem_of_fmap. exists s. split; [done|].
        apply list_elem_of_filter. by split. }
      apply list_elem_of_fmap in Htag as ([tag l] & Htag & Hr). cbn [fst] in Htag.
      destruct (done_cells0 _ Hr) as (data' & m' & Hdata' & Hm' & Hcell).
      cbn [fst snd] in Hdata', Hcell. rewrite <- Htag, Hdata in Hdata'.
      injection Hdata' as <-. rewrite Hm in Hm'. injection Hm' as <-.
      exists (PtrDynamicMatcher l). split.
      * right. apply list_elem_of_fmap. exists l. split; [done|].
        apply list_elem_of_fmap. by exists (tag, l).
      * cbn [Match member_LocalMatcher]. by rewrite Hcell.
Qed.

Lemma BatchLoadMacProvider_Match_witness :
  let e := ["provider:a"; "aa:bb:cc:dd:ee:ff"] in
  let r := BatchLoadMacProvider e two_providers in
  let mg := default (mkLocalMatcherGroup [] []) (fst (fst r)) in
  exists ms,
    BatchLoad NewMatcher (filter (fun s => is_provider s = false) e) = (ms, None)
    /\ forall mac,
        LocalMatcherGroup_Match mg (snd r) mac = true
        <-> Matcher_Match ms mac = true
            \/ exists s data m,
                 s ∈ e /\ is_provider s = true
                 /\ dp_data <$> providers two_providers !! TrimPrefix s "provider:"
                    = Some data
                 /\ ParseTextMacFile data = (Some m, None)
                 /\ Matcher_Match m mac = true.
Proof.
  intros e r mg.
  apply (BatchLoadMacProvider_Match e two_providers (snd r) mg).
  apply result_ok_eq; vm_compute; reflexivity.
Defined.

Lemma DeleteListener_frame (tag : string) (l : loc) (w : World) :
  matchers (DeleteListener tag l w) = matchers w
  /\ cells (DeleteListener tag l w) = cells w.
Proof. unfold DeleteListener. by destruct (providers w !! tag). Qed.

Lemma Close_loop_deregister_frame (regs : list (string * loc)) (w : World) :
  matchers (Close_loop (deregister <$> regs) w) = matchers w
  /\ cells (Close_loop (deregister <$> regs) w) = cells w.
Proof.
  revert w. induction regs as [|r regs IH]; intros w; [done|].
  cbn [fmap list_fmap Close_loop].
  change (list_fmap _ _ deregister regs) with (deregister <$> regs).
  destruct (IH (deregister r w)) as [-> ->]. apply DeleteListener_frame.
Qed.

Lemma member_frame (w1 w2 : World) (p : member) (mac : HardwareAddr) :
  matchers w1 = matchers w2 -> cells w1 = cells w2 ->
  Match p w1 mac = Match p w2 mac /\ Len p w1 = Len p w2.
Proof.
  intros Hm Hc. destruct p as [p|p]; cbn [Match Len member_LocalMatcher];
    rewrite ?Hm, ?Hc; by destruct (_ !! p).
Qed.

Lemma group_frame (w1 w2 : World) (g : list member) (mac : HardwareAddr) (s : Z) :
  matchers w1 = matchers w2 -> cells w1 = cells w2 ->
  Match_loop g w1 mac = Match_loop g w2 mac /\ Len_loop g w1 s = Len_loop g w2 s.
Proof.
  intros Hm Hc. revert s. induction g as [|p g IH]; intros s; [done|].
  cbn [Match_loop Len_loop].
  destruct (member_frame w1 w2 p mac Hm Hc) as [-> ->].
  destruct (IH (s + Len p w2)) as [-> ->]. done.
Qed.

(** X16.  [Close] only detaches: it changes no static set and no cell,
    so the group that [BatchLoadMacProvider] returned matches and counts
    after [Close] as it did before. *)
Theorem BatchLoadMacProvider_Close_keeps_matching
    (e : list string) (w w' : World) (mg : LocalMatcherGroup World member) :
  BatchLoadMacProvider e w = ((Some mg, None), w') ->
  matchers (fst (LocalMatcherGroup_Close mg w')) = matchers w'
  /\ cells (fst (LocalMatcherGroup_Close mg w')) = cells w'
  /\ forall mac,
      LocalMatcherGroup_Match mg (fst (LocalMatcherGroup_Close mg w')) mac
      = LocalMatcherGroup_Match mg w' mac
      /\ LocalMatcherGroup_Len mg (fst (LocalMatcherGroup_Close mg w'))
         = LocalMatcherGroup_Len mg w'.
Proof.
  intros Hok. destruct (BatchLoadMacProvider_ok_inv _ _ _ _ Hok) as [regs Hd].
  destruct Hd. unfold LocalMatcherGroup_Close. cbn [fst closer app] in *.
  rewrite done_closer0.
  destruct (Close_loop_deregister_frame regs w') as [Hm Hc].
  split; [exact Hm|]. split; [exact Hc|]. intros mac.
  unfold LocalMatcherGroup_Match, LocalMatcherGroup_Len.
  by apply group_frame.
Qed.

Lemma BatchLoadMacProvider_Close_keeps_matching_witness :
  let e := ["provider:a"; "aa:bb:cc:dd:ee:ff"] in
  let r := BatchLoadMacProvider e two_providers in
  let mg := default (mkLocalMatcherGroup [] []) (fst (fst r)) in
  matchers (fst (LocalMatcherGroup_Close mg (snd r))) = matchers (snd r)
  /\ cells (fst (LocalMatcherGroup_Close mg (snd r))) = cells (snd r)
  /\ forall mac,
      LocalMatcherGroup_Match mg (fst (LocalMatcherGroup_Close mg (snd r))) mac
      = LocalMatcherGroup_Match mg (snd r) mac
      /\ LocalMatcherGroup_Len mg (fst (LocalMatcherGroup_Close mg (snd r)))
         = LocalMatcherGroup_Len mg (snd r).
Proof.
  intros e r mg.
  apply (BatchLoadMacProvider_Close_keeps_matching e two_providers (snd r) mg).
  apply result_ok_eq; vm_compute; reflexivity.
Defined.

(** ** [Load] and the white space around an entry *)

Lemma list_byte_of_string_app (a b : string) :
  list_byte_of_string (a +:+ b) = list_byte_of_string a ++ list_byte_of_string b.
Proof.
  induction a as [|c a IH]; [reflexivity|].
  change (list_byte_of_string (String c a +:+ b))
    with (byte_of_ascii c :: list_byte_of_string (a +:+ b)).
  by rewrite IH.
Qed.

Lemma starts_graphic_space_width (s : list byte) :
  starts_graphic s = true -> space_width s = 0%nat.
Proof.
  destruct s as [|b r]; [discriminate|]. unfold starts_graphic.
  destruct b; intros Hb; try (vm_compute in Hb; discriminate Hb); reflexivity.
Qed.

Lemma starts_graphic_space_width_last (s : list byte) :
  starts_graphic (reverse s) = true -> space_width_last s = 0%nat.
Proof.
  unfold space_width_last. destruct (reverse s) as [|b r]; [discriminate|].
  unfold starts_graphic.
  destruct b; intros Hb; try (vm_compute in Hb; discriminate Hb); reflexivity.
Qed.

Lemma TrimLeft_loop_strip (es : list (list byte)) (r : list byte) (fuel : nat) :
  Forall (fun e => e ∈ white_space) es ->
  (length es <= fuel)%nat ->
  space_width r = 0%nat ->
  TrimLeft_loop fuel (concat es ++ r) = r.
Proof.
  intros Hes. revert fuel.
  induction Hes as [|e es He _ IH]; intros fuel Hfuel Hr.
  - destruct fuel; simpl; by rewrite ?Hr.
  - destruct fuel as [|fuel]; [simpl in Hfuel; lia|].
    cbn [concat TrimLeft_loop]. rewrite <- app_assoc.
    rewrite (space_width_white_space _ _ He).
    pose proof (white_space_nonempty e He).
    destruct (length e) as [|k] eqn:Ek; [lia|].
    rewrite <- Ek, drop_app_length. apply IH; [simpl in Hfuel; lia | exact Hr].
Qed.

(** No white space code point is the end of another one. *)
Lemma white_space_suffix_free (e e' : list byte) :
  e ∈ white_space -> e' ∈ white_space ->
  starts_with (reverse e) (reverse e') = true -> e = e'.
Proof.
  intros He He'.
  assert (forallb (fun a => forallb (fun b =>
            implb (starts_with (reverse a) (reverse b)) (bool_decide (a = b)))
                                       white_space) white_space
          = true) as Hall by (vm_compute; reflexivity).
  rewrite forallb_forall in Hall. apply list_elem_of_In in He, He'.
  specialize (Hall e He). rewrite forallb_forall in Hall. specialize (Hall e' He').
  intros Hs. rewrite Hs in Hall. simpl in Hall. by apply bool_decide_eq_true in Hall.
Qed.

Lemma space_width_last_white_space (s e : list byte) :
  e ∈ white_space -> space_width_last (s ++ e) = length e.
Proof.
  intros He. unfold space_width_last. rewrite reverse_app.
  destruct (find (fun e' => starts_with (reverse e') (reverse e ++ reverse s))
              white_space) as [e'|] eqn:E.
  - apply find_some in E as [He' Hs]. apply list_elem_of_In in He'.
    apply starts_with_inv in Hs as [r' Hr'].
    destruct (starts_with_comparable _ _ _ _ Hr') as [Hc|Hc].
    + by rewrite (white_space_suffix_free _ _ He He' Hc).
    + by rewrite (white_space_suffix_free _ _ He' He Hc).
  - apply list_elem_of_In in He. pose proof (find_none _ _ E e He) as Hn.
    simpl in Hn. by rewrite starts_with_app in Hn.
Qed.

Lemma TrimRight_loop_strip (es : list (list byte)) (t : list byte) (fuel : nat) :
  Forall (fun e => e ∈ white_space) es ->
  (length es <= fuel)%nat ->
  space_width_last t = 0%nat ->
  TrimRight_loop fuel (t ++ concat es) = t.
Proof.
  revert fuel. induction es as [|e es IH] using rev_ind; intros fuel Hes Hfuel Ht.
  - simpl. rewrite app_nil_r. destruct fuel; simpl; by rewrite ?Ht.
  - apply Forall_app in Hes as [Hes He]. apply Forall_cons in He as [He _].
    rewrite length_app in Hfuel. simpl in Hfuel.
    destruct fuel as [|fuel]; [lia|].
    rewrite concat_app. cbn [concat]. rewrite app_nil_r, app_assoc.
    cbn [TrimRight_loop]. rewrite (space_width_last_white_space _ _ He).
    pose proof (white_space_nonempty e He).
    destruct (length e) as [|k] eqn:Ek; [lia|].
    rewrite <- Ek.
    replace (length ((t ++ concat es) ++ e) - length e)%nat
      with (length (t ++ concat es)) by (rewrite (length_app (t ++ concat es)); lia).
    rewrite take_app_length. apply IH; [exact Hes | lia | exact Ht].
Qed.

Lemma TrimSpace_padded (p t q : string) :
  whitespace_only p -> whitespace_only q -> bare t = true ->
  TrimSpace (p +:+ t +:+ q) = t /\ t <> "".
Proof.
  intros (ps & Hps & Hp) (qs & Hqs & Hq) Ht.
  apply andb_true_iff in Ht as [Hfirst Hlast]. split.
  - unfold TrimSpace. rewrite !list_byte_of_string_app, Hp, Hq.
    set (T := list_byte_of_string t) in *.
    assert (TrimLeft (concat ps ++ T ++ concat qs) = T ++ concat qs) as ->.
    { unfold TrimLeft. apply TrimLeft_loop_strip; [exact Hps| |].
      - rewrite length_app. pose proof (length_concat_white_space ps Hps). lia.
      - apply starts_graphic_space_width. by destruct T. }
    assert (TrimRight (T ++ concat qs) = T) as ->.
    { unfold TrimRight. apply TrimRight_loop_strip; [exact Hqs| |].
      - rewrite length_app. pose proof (length_concat_white_space qs Hqs). lia.
      - by apply starts_graphic_space_width_last. }
    apply string_of_list_byte_of_string.
  - intros ->. discriminate.
Qed.

(** X17.  [Load] trims: an entry that is a text between white space, the
    text beginning and ending with a printable character, is passed to
    [Add] as the text alone, whatever [Add] the matcher has. *)
Theorem Load_trims_entry (p t q : string) :
  whitespace_only p -> whitespace_only q -> bare t = true ->
  forall (T : Type) (I : LocalWriteableMatcher T) (m : T),
    Load m (p +:+ t +:+ q) = Add m t tt.
Proof.
  intros Hp Hq Ht T I m. destruct (TrimSpace_padded p t q Hp Hq Ht) as [Htrim Hne].
  unfold Load. rewrite Htrim.
  destruct (len t =? 0) eqn:E; [|reflexivity].
  by apply len_zero in E.
Qed.

Lemma Load_trims_entry_witness :
  Load NewMatcher (string_of_list_byte [x20; xc2; xa0] +:+ "aa:bb:cc:dd:ee:ff"
                   +:+ string_of_list_byte [x09; x0d])
  = Add NewMatcher "aa:bb:cc:dd:ee:ff" tt.
Proof.
  refine (Load_trims_entry (string_of_list_byte [x20; xc2; xa0]) "aa:bb:cc:dd:ee:ff"
            (string_of_list_byte [x09; x0d]) _ _ _ Matcher _ NewMatcher).
  - exists [[x20]; [xc2; xa0]]. split; [|reflexivity].
    repeat constructor; apply list_elem_of_In; simpl; tauto.
  - exists [[x09]; [x0d]]. split; [|reflexivity].
    repeat constructor; apply list_elem_of_In; simpl; tauto.
  - reflexivity.
Defined.

(** ** A reload seen through the group *)

Lemma Update_at_error (l : loc) (b : list byte) (w : World) (err : error) :
  fst (Update_at l b w) = Some err -> snd (Update_at l b w) = w.
Proof.
  unfold Update_at. destruct (cells w !! l) as [d|] eqn:Hl; [|discriminate].
  unfold DynamicMatcher_Update. destruct (parserFunc d b) as [v [e|]]; [|discriminate].
  intros _. cbn [snd]. rewrite (list_insert_id _ _ _ Hl). by destruct w.
Qed.

Lemma Update_at_ok (l : loc) (b : list byte) (w : World) (d : DynamicMatcher Matcher)
    (m : Matcher) :
  cells w !! l = Some d ->
  parserFunc d b = (Some m, None) ->
  Update_at l b w
  = (None, mkWorld (matchers w)
             (<[l := mkDynamicMatcher (parserFunc d) (Some m)]> (cells w))
             (providers w)).
Proof.
  intros Hl Hb. unfold Update_at, DynamicMatcher_Update. by rewrite Hl, Hb.
Qed.

(** X18.  A reload is seen through the group without rebuilding it.  When
    [Update(b)] is called on a cell of the heap and the cell's parser
    fails, the error is returned and the state, hence every group's
    answer, is unchanged.  When the parser builds a set, the group
    matches afterwards exactly what that set matches or a member other
    than this cell matched before. *)
Theorem Update_at_seen_by_group
    (mg : LocalMatcherGroup World member) (l : loc) (b : list byte) (w : World)
    (d : DynamicMatcher Matcher) :
  cells w !! l = Some d ->
  (forall err, snd (parserFunc d b) = Some err ->
               Update_at l b w = (Some err, w))
  /\ (forall m, parserFunc d b = (Some m, None) ->
        fst (Update_at l b w) = None
        /\ forall mac,
            LocalMatcherGroup_Match mg (snd (Update_at l b w)) mac = true
            <-> (PtrDynamicMatcher l ∈ g mg /\ Matcher_Match m mac = true)
                \/ exists p, p ∈ g mg /\ p <> PtrDynamicMatcher l
                             /\ Match p w mac = true).
Proof.
  intros Hl. split.
  - intros err Herr.
    assert (fst (Update_at l b w) = Some err) as Hfst.
    { unfold Update_at. rewrite Hl.
      rewrite (DynamicMatcher_Update_error _ _ _ Herr). reflexivity. }
    pose proof (Update_at_error _ _ _ _ Hfst) as Hsnd.
    destruct (Update_at l b w) as [r w1]. cbn [fst snd] in *. by subst.
  - intros m Hb. rewrite (Update_at_ok _ _ _ _ _ Hl Hb). cbn [fst snd].
    split; [reflexivity|]. intros mac.
    set (w1 := mkWorld _ _ _).
    assert (forall p, Match p w1 mac
                      = if decide (p = PtrDynamicMatcher l) then Matcher_Match m mac
                        else Match p w mac) as Hmem.
    { intros [p|p]; cbn [Match member_LocalMatcher]; subst w1; cbn [matchers cells].
      - by rewrite decide_False by discriminate.
      - destruct (decide (PtrDynamicMatcher p = PtrDynamicMatcher l)) as [[= ->]|Hne].
        + rewrite list_lookup_insert_eq by (by apply lookup_lt_Some in Hl).
          reflexivity.
        + rewrite list_lookup_insert_ne by congruence. reflexivity. }
    unfold LocalMatcherGroup_Match. rewrite Match_loop_true. split.
    + intros (p & Hp & Hmatch). rewrite Hmem in Hmatch.
      destruct (decide (p = PtrDynamicMatcher l)) as [->|Hne]; [by left|].
      right. by exists p.
    + intros [[Hin Hmatch] | (p & Hp & Hne & Hmatch)].
      * exists (PtrDynamicMatcher l). split; [exact Hin|].
        rewrite Hmem. by rewrite decide_True.
      * exists p. split; [exact Hp|]. rewrite Hmem. by rewrite decide_False.
Qed.

Lemma Update_at_seen_by_group_witness :
  let d := mkDynamicMatcher parseFunc
             (Some (Matcher_add NewMatcher [x00; x11; x22; x33; x44; x55])) in
  let w := mkWorld [NewMatcher] [d] ∅ in
  let mg := mkLocalMatcherGroup [PtrMatcher 0; PtrDynamicMatcher 0] [] in
  let b := list_byte_of_string "66:77:88:99:aa:bb" in
  (forall err, snd (parserFunc d b) = Some err ->
               Update_at 0 b w = (Some err, w))
  /\ (forall m, parserFunc d b = (Some m, None) ->
        fst (Update_at 0 b w) = None
        /\ forall mac,
            LocalMatcherGroup_Match mg (snd (Update_at 0 b w)) mac = true
            <-> (PtrDynamicMatcher 0 ∈ g mg /\ Matcher_Match m mac = true)
                \/ exists p, p ∈ g mg /\ p <> PtrDynamicMatcher 0
                             /\ Match p w mac = true).
Proof.
  intros d w mg b.
  apply (Update_at_seen_by_group mg 0%nat b w d).
  reflexivity.
Defined.
